(** * Tools/GenericThermTableh.py: generic NTC thermistor table generator

    The script samples every ADC code of a range, converts the code to a
    thermistor resistance through the voltage divider ([v2r]), takes the
    natural logarithm of the resistance ratio, projects three temperatures
    with the beta form of the Steinhart-Hart equation and keeps the points
    whose middle-beta temperature falls below a moving threshold.

    Python floats are modelled by the real numbers of the Standard Library:
    every statement below is about the exact real-valued computation.  An
    operation that has no real result (a division by zero, the logarithm of
    a non-positive number) yields [None]. *)

From Stdlib Require Import Reals Lra Lia ZArith List QArith Qreals Bool Sorted.
Import ListNotations.

Local Open Scope R_scope.

(** ** Partial arithmetic *)

Module Py.

(** [a / b] on Python numbers: [ZeroDivisionError] when [b] is zero (NumPy
    scalars give [inf] or [nan] with a warning, which are not reals
    either). *)
Definition div (a b : R) : option R :=
  if Req_dec_T b 0 then None else Some (a / b).

(** [np.log a]: a real only for a positive argument. *)
Definition log (a : R) : option R :=
  if Rlt_dec 0 a then Some (ln a) else None.

Definition bind {A B : Type} (m : option A) (f : A -> option B) : option B :=
  match m with
  | Some a => f a
  | None => None
  end.

(** Runs [f] over a list from left to right and stops at the first
    failure. *)
Fixpoint mapM {A B : Type} (f : A -> option B) (l : list A) : option (list B) :=
  match l with
  | [] => Some []
  | a :: l' =>
      bind (f a) (fun b => bind (mapM f l') (fun bs => Some (b :: bs)))
  end.

(** [m.floor]. *)
Definition floor (x : R) : Z := Zfloor x.

End Py.

Notation "x <- m ;; k" := (Py.bind m (fun x => k))
  (at level 61, m at next level, right associativity).

(** ** The module-level constants *)

Record Config : Type := mkConfig {
  rRef : R;          (* nominal NTC resistance at 25 C *)
  rPullup : R;       (* nominal pull up *)
  tZero : R;         (* C -> K conversion *)
  adcFS : R;         (* full scale at the ADC *)
  maxTemp : R;
  minTemp : R;
  TXBETA1 : R;
  TXBETA2 : R;
  TXBETA3 : R;
  adcStart : Z;
  adcStop : Z
}.

(** The constants as the script sets them. *)
Definition marlin : Config :=
  {| rRef := 1e5; rPullup := 4700; tZero := 273.15; adcFS := 1023;
     maxTemp := 300; minTemp := -15;
     TXBETA1 := 3380; TXBETA2 := 3950; TXBETA3 := 4500;
     adcStart := 20; adcStop := 1020 |}.

(** [tbls=[600,601,0]] *)
Definition tbls : list Z := [600; 601; 0]%Z.

(** One emitted table line: the ADC code, the log ratio, and the three
    projected temperatures (biased by 0.5, not yet floored). *)
Record Row : Type := mkRow {
  row_adc : R;
  row_rlval : R;
  row_tx1 : R;
  row_tx2 : R;
  row_tx3 : R
}.

(** The trailing comment of a line prints the floored projections. *)
Definition instanceComment (r : Row) : Z * Z * Z :=
  (Py.floor (row_tx1 r), Py.floor (row_tx2 r), Py.floor (row_tx3 r)).

Section Generator.

Variable cfg : Config.

(** [def v2r(vr)]: ADC units to resistance. *)
Definition v2r (vr : R) : option R :=
  vrs <- Py.div vr (adcFS cfg) ;;
  Py.div (vrs * rPullup cfg) (1 - vrs).

(** [def r2v(r)]: resistance to ADC units. *)
Definition r2v (r : R) : option R :=
  Py.div (adcFS cfg * r) (r + rPullup cfg).

(** [numResult=adcStop-adcStart+1] *)
Definition numResult : Z := (adcStop cfg - adcStart cfg + 1)%Z.

(** The integer codes behind [np.linspace(adcStart,adcStop,numResult)]:
    the spacing is [(adcStop-adcStart)/(numResult-1) = 1]. *)
Definition codes : list Z :=
  map (fun i => (adcStart cfg + Z.of_nat i)%Z) (seq 0 (Z.to_nat numResult)).

(** [adc=np.linspace(adcStart,adcStop,numResult)]; a negative count is a
    [ValueError]. *)
Definition adc : option (list R) :=
  if (numResult <? 0)%Z then None else Some (map IZR codes).

(** [rlvals[i]=np.log(v2r(adc[i])/rRef)] *)
Definition rlval (a : R) : option R :=
  r <- v2r a ;;
  q <- Py.div r (rRef cfg) ;;
  Py.log q.

Definition rlvals : option (list R) :=
  a <- adc ;; Py.mapM rlval a.

(** The Steinhart-Hart projection of the loop body,
    [1.0/(1.0/(25.0+tZero)+rlvals[i]/TXBETA)-tZero+0.5]. *)
Definition tx (beta x : R) : option R :=
  a <- Py.div 1 (25 + tZero cfg) ;;
  b <- Py.div x beta ;;
  c <- Py.div 1 (a + b) ;;
  Some (c - tZero cfg + 0.5).

(** The projection without the rounding bias, in Celsius: the [T] of
    [1/T=1/T0+1/BETA*ln(R/R0)] less [tZero]. *)
Definition T (x beta : R) : option R :=
  t <- tx beta x ;; Some (t - 0.5).

(** [temperatureStepSize] of one table. *)
Definition temperatureStepSize (tbl : Z) : option R :=
  if (tbl =? 0)%Z then Some 0
  else Py.div (maxTemp cfg - minTemp cfg) 100.

(** The selection loop [for i in range(0,numResult)], with [oldTx] passed
    along; the result is the sequence of lines written. *)
Fixpoint loop (step oldTx : R) (pts : list (R * R)) : option (list Row) :=
  match pts with
  | [] => Some []
  | (a, x) :: rest =>
      tx1 <- tx (TXBETA1 cfg) x ;;
      tx2 <- tx (TXBETA2 cfg) x ;;
      tx3 <- tx (TXBETA3 cfg) x ;;
      if Rlt_dec tx2 oldTx then
        rows <- loop step (oldTx - step) rest ;;
        Some (mkRow a x tx1 tx2 tx3 :: rows)
      else loop step oldTx rest
  end.

(** The points the loop walks: [(adc[i], rlvals[i])]. *)
Definition samples : option (list (R * R)) :=
  a <- adc ;; Py.mapM (fun c => x <- rlval c ;; Some (c, x)) a.

(** The body of [for tbl in tbls]: the lines of [thermistortable_tbl.h]. *)
Definition table (tbl : Z) : option (list Row) :=
  pts <- samples ;;
  step <- temperatureStepSize tbl ;;
  loop step (maxTemp cfg) pts.

(** [lines], the count printed at the end of a table. *)
Definition lines (tbl : Z) : option nat :=
  rows <- table tbl ;; Some (length rows).

End Generator.

(** ** The values the script computes for its own constants *)

(** The ratio [v2r(c)/rRef] of an integer code under [marlin]:
    [c/1023*4700/(1-c/1023)/1e5 = 47 c / (1000 (1023 - c))]. *)
Definition qcode (c : Z) : R := IZR (47 * c) / IZR (1000 * (1023 - c)).

(** The projection as a total real expression; [tx] returns it whenever no
    divisor vanishes. *)
Definition tval (cfg : Config) (beta x : R) : R :=
  1 / (1 / (25 + tZero cfg) + x / beta) - tZero cfg + 0.5.

(** The sample and the annotated line of code [c] under [marlin]. *)
Definition mpt (c : Z) : R * R := (IZR c, ln (qcode c)).

Definition mrow (c : Z) : Row :=
  let x := ln (qcode c) in
  mkRow (IZR c) x (tval marlin 3380 x) (tval marlin 3950 x) (tval marlin 4500 x).




(** Order of a real sequence by position. *)
Definition increasing (l : list R) : Prop :=
  forall i j a b, (i < j)%nat ->
    nth_error l i = Some a -> nth_error l j = Some b -> a < b.

Definition decreasing (l : list R) : Prop :=
  forall i j a b, (i < j)%nat ->
    nth_error l i = Some a -> nth_error l j = Some b -> b < a.

(** The configuration checks of the specification's error-handling section
    (the script itself has none): positive resistances, [adcStart] and
    [adcStop] inside [(0, adcFS)], [adcStart < adcStop], positive betas. *)
Definition spec_valid_config (cfg : Config) : Prop :=
  0 < rRef cfg /\ 0 < rPullup cfg /\
  0 < IZR (adcStart cfg) < adcFS cfg /\ 0 < IZR (adcStop cfg) < adcFS cfg /\
  (adcStart cfg < adcStop cfg)%Z /\
  0 < TXBETA1 cfg /\ 0 < TXBETA2 cfg /\ 0 < TXBETA3 cfg.

(** [marlin] with the sampling range collapsed to the single code 20. *)
Definition one_code : Config :=
  {| rRef := 1e5; rPullup := 4700; tZero := 273.15; adcFS := 1023;
     maxTemp := 300; minTemp := -15;
     TXBETA1 := 3380; TXBETA2 := 3950; TXBETA3 := 4500;
     adcStart := 20; adcStop := 20 |}.

(** ** Views of the loop used in the statements *)

(** The line the loop writes for a point when its comparison succeeds. *)
Definition annotate (cfg : Config) (p : R * R) : option Row :=
  tx1 <- tx cfg (TXBETA1 cfg) (snd p) ;;
  tx2 <- tx cfg (TXBETA2 cfg) (snd p) ;;
  tx3 <- tx cfg (TXBETA3 cfg) (snd p) ;;
  Some (mkRow (fst p) (snd p) tx1 tx2 tx3).

Definition below (th : R) (r : Row) : bool :=
  if Rlt_dec (row_tx2 r) th then true else false.

Definition at_least (m : R) (r : Row) : bool :=
  if Rle_dec m (row_tx2 r) then true else false.

(** ** Certified evaluation of the comparisons

    A comparison [tx2 < oldTx] of the loop is a comparison of the rational
    [qcode c] with the exponential of a rational.  The exponential is
    enclosed between two fixed-point numbers computed over [Z]:
    [(1 + L/2^h)^(2^h) <= exp L <= (1 - L/2^h)^-(2^h)], by [h] squarings
    rounded down, respectively up. *)

Module Cert.

Local Open Scope Z_scope.

(** Fraction bits of the fixed-point numbers, and the number [h] of
    squarings. *)
Definition prec : Z := 80.
Definition halvings : nat := 36.
Definition one : Z := 2 ^ prec.
Definition scale : Z := 2 ^ Z.of_nat halvings.

Definition sqr_dn (x : Z) : Z := Z.shiftr (x * x) prec.
Definition sqr_up (x : Z) : Z := Z.shiftr (x * x + (one - 1)) prec.

Definition exp_arg_ok (L : Q) : bool :=
  let d := Zpos (Qden L) in
  (- (d * scale) <? Qnum L) && (Qnum L <? d * scale).

Definition exp_dn (L : Q) : Z :=
  let d := Zpos (Qden L) in
  Nat.iter halvings sqr_dn ((one * (d * scale + Qnum L)) / (d * scale)).

Definition exp_up (L : Q) : Z :=
  let d := Zpos (Qden L) in
  Nat.iter halvings sqr_up
    ((one * (d * scale) + (d * scale - Qnum L - 1)) / (d * scale - Qnum L)).

(** The log ratio at which the middle-beta projection equals [th]:
    [3950 (1/(th + 273.15 - 0.5) - 1/(25 + 273.15))]. *)
Definition LQ (th : Q) : Q :=
  Qred (3950 * (/ (th + (27265 # 100)) - (100 # 29815)))%Q.

(** Lower and upper fixed-point bound of [exp (LQ th)]. *)
Definition thr_bounds (th : Q) : option (Z * Z) :=
  if Qlt_le_dec 0 (th + (27265 # 100)) then
    let L := LQ th in
    if exp_arg_ok L then Some (exp_dn L, exp_up L) else None
  else None.

Definition in_range (c : Z) : bool := (0 <? c) && (c <? 1023).

(** [qcode c] is above the upper bound: the line is kept. *)
Definition keepZ (b : Z * Z) (c : Z) : bool :=
  snd b * (1000 * (1023 - c)) <? 47 * c * one.

(** [qcode c] is at most the lower bound: the line is dropped. *)
Definition dropZ (b : Z * Z) (c : Z) : bool :=
  47 * c * one <=? fst b * (1000 * (1023 - c)).

(** The selection loop over codes, with a rational threshold; [None] when
    a comparison is not settled by the bounds. *)
Fixpoint runQ (step th : Q) (b : Z * Z) (cs : list Z) : option (list Z) :=
  match cs with
  | [] => Some []
  | c :: rest =>
      if in_range c then
        if keepZ b c then
          let th' := Qred (th - step) in
          match (if Qeq_bool th' th then Some b else thr_bounds th') with
          | Some b' => option_map (cons c) (runQ step th' b' rest)
          | None => None
          end
        else if dropZ b c then runQ step th b rest
        else None
      else None
  end.

Definition run (step th : Q) (cs : list Z) : option (list Z) :=
  match thr_bounds th with
  | Some b => runQ step th b cs
  | None => None
  end.



End Cert.

(** The log ratio at which the middle-beta projection of [marlin] equals
    [th], and what a pair of fixed-point bounds must enclose. *)
Definition Lr (th : R) : R := 3950 * (1 / (th + 273.15 - 0.5) - 1 / (25 + 273.15)).

Definition bounds_for (th : R) (b : Z * Z) : Prop :=
  0 < th + 273.15 - 0.5 /\
  IZR (fst b) / IZR Cert.one <= exp (Lr th) <= IZR (snd b) / IZR Cert.one.

(** The codes [20 .. 1020] the script samples. *)
Definition sampled_codes : list Z :=
  Eval vm_compute in map (fun i => (20 + Z.of_nat i)%Z) (seq 0 1001).

(** The lines of [thermistortable_600.h] and [thermistortable_601.h]: the
    codes kept and the middle-beta temperature printed beside each. *)
Definition kept_normal : list Z :=
  [37; 39; 40; 41; 43; 45; 46; 48; 50; 52; 54; 57; 59; 61; 64; 67; 69;
   72; 76; 79; 82; 86; 90; 94; 99; 103; 108; 113; 119; 124; 130; 137;
   143; 150; 158; 166; 174; 183; 192; 201; 212; 222; 234; 245; 258;
   271; 284; 299; 314; 329; 345; 362; 380; 398; 416; 436; 455; 476;
   496; 517; 539; 561; 582; 604; 626; 648; 670; 691; 713; 733; 754;
   773; 792; 810; 828; 845; 860; 875; 889; 902; 915; 926; 936; 946;
   955; 963; 970; 977; 983; 988; 993; 997; 1001; 1004; 1007; 1009;
   1011; 1013; 1015; 1016; 1018; 1019; 1020]%Z.


(** The lines of [thermistortable_0.h]: the codes [37 .. 1020]. *)
Definition kept_dense : list Z :=
  Eval vm_compute in map (fun i => (37 + Z.of_nat i)%Z) (seq 0 984).

(** ** Further views of the tables *)

(** [l1] is [l2] with some elements left out, the order kept. *)
Inductive subseq {A : Type} : list A -> list A -> Prop :=
| subseq_nil : subseq [] []
| subseq_skip (a : A) (l1 l2 : list A) : subseq l1 l2 -> subseq l1 (a :: l2)
| subseq_keep (a : A) (l1 l2 : list A) : subseq l1 l2 -> subseq (a :: l1) (a :: l2).

(** The sampled point a line was written for. *)
Definition row_point (r : Row) : R * R := (row_adc r, row_rlval r).

(** What decides the selection of a line: its point and its middle-beta
    projection. *)
Definition row_key (r : Row) : R * R * R := (row_adc r, row_rlval r, row_tx2 r).

(** The constants with other reference betas [TXBETA1] and [TXBETA3]. *)
Definition with_side_betas (cfg : Config) (b1 b3 : R) : Config :=
  {| rRef := rRef cfg; rPullup := rPullup cfg; tZero := tZero cfg;
     adcFS := adcFS cfg; maxTemp := maxTemp cfg; minTemp := minTemp cfg;
     TXBETA1 := b1; TXBETA2 := TXBETA2 cfg; TXBETA3 := b3;
     adcStart := adcStart cfg; adcStop := adcStop cfg |}.

(** The constants with another range of ADC values to consider. *)
Definition with_range (cfg : Config) (start stop : Z) : Config :=
  {| rRef := rRef cfg; rPullup := rPullup cfg; tZero := tZero cfg;
     adcFS := adcFS cfg; maxTemp := maxTemp cfg; minTemp := minTemp cfg;
     TXBETA1 := TXBETA1 cfg; TXBETA2 := TXBETA2 cfg; TXBETA3 := TXBETA3 cfg;
     adcStart := start; adcStop := stop |}.

(** ** The macro of the generated header

    [string1] writes
    [#define T0 (273.15)] and
    [#define TV(rval) (short)(1.0/(1.0/(25.0+T0)+rval/BETA)-T0+0.5)]
    into every header; the C compiler evaluates it on each [rlvals] entry. *)

Module Header.





End Header.

(** * Proofs *)

(** ** The certificates, checked by evaluation *)

Lemma run_normal :
  Cert.run (315 # 100) 300 sampled_codes = Some kept_normal.
Proof. vm_compute. reflexivity. Qed.

Lemma run_dense : Cert.run 0 300 sampled_codes = Some kept_dense.
Proof. vm_compute. reflexivity. Qed.


(** ** Partial arithmetic and the closed forms *)

Lemma div_some (a b : R) : b <> 0 -> Py.div a b = Some (a / b).
Proof. intros H. unfold Py.div. destruct (Req_dec_T b 0); [contradiction | reflexivity]. Qed.

Lemma div_zero (a : R) : Py.div a 0 = None.
Proof. unfold Py.div. destruct (Req_dec_T 0 0); [reflexivity | congruence]. Qed.


Lemma log_some (a : R) : 0 < a -> Py.log a = Some (ln a).
Proof. intros H. unfold Py.log. destruct (Rlt_dec 0 a); [reflexivity | contradiction]. Qed.


(** v2r in closed form *)
Lemma v2r_some (cfg : Config) (vr : R) :
  adcFS cfg <> 0 -> vr <> adcFS cfg ->
  v2r cfg vr = Some (vr / adcFS cfg * rPullup cfg / (1 - vr / adcFS cfg)).
Proof.
  intros Hfs Hvr. unfold v2r. rewrite div_some by assumption. simpl.
  apply div_some. intros H. apply Hvr. 
  assert (vr / adcFS cfg = 1) by lra. 
  apply (f_equal (fun t => t * adcFS cfg)) in H0. field_simplify in H0; lra.
Qed.

Lemma tx_some (cfg : Config) (beta x : R) :
  25 + tZero cfg <> 0 -> beta <> 0 -> 1 / (25 + tZero cfg) + x / beta <> 0 ->
  tx cfg beta x = Some (tval cfg beta x).
Proof.
  intros H1 H2 H3. unfold tx, tval.
  rewrite (div_some 1) by assumption. simpl.
  rewrite div_some by assumption. simpl.
  rewrite div_some by assumption. reflexivity.
Qed.

(** real-side threshold equivalence *)
Lemma tval_lt_iff (t25 tz beta x th : R) :
  0 < t25 -> 0 < beta -> 0 < 1 / t25 + x / beta -> 0 < th + tz - 0.5 ->
  (1 / (1 / t25 + x / beta) - tz + 0.5 < th <->
   beta * (1 / (th + tz - 0.5) - 1 / t25) < x).
Proof.
  intros H25 Hb HD HT.
  set (D := 1 / t25 + x / beta) in *. set (Th := th + tz - 0.5) in *.
  assert (E1 : 1 / D - tz + 0.5 < th <-> 1 / D < Th) by (unfold Th; lra).
  assert (E2 : 1 / D < Th <-> 1 / Th < D).
  { split; intros H.
    - apply (Rmult_lt_reg_r Th); [assumption|].
      replace (1 / Th * Th) with 1 by (field; lra).
      apply (Rmult_lt_reg_l (1 / D)).
      { apply Rdiv_lt_0_compat; lra. }
      replace (1 / D * (D * Th)) with Th by (field; lra). lra.
    - apply (Rmult_lt_reg_r D); [assumption|].
      replace (1 / D * D) with 1 by (field; lra).
      apply (Rmult_lt_reg_l (1 / Th)).
      { apply Rdiv_lt_0_compat; lra. }
      replace (1 / Th * (Th * D)) with D by (field; lra). lra. }
  assert (E3 : 1 / Th < D <-> beta * (1 / Th - 1 / t25) < x).
  { unfold D. split; intros H.
    - apply (Rmult_lt_reg_r (/ beta)); [apply Rinv_0_lt_compat; assumption|].
      replace (beta * (1 / Th - 1 / t25) * / beta) with (1 / Th - 1 / t25) by (field; lra).
      unfold Rdiv in H. lra.
    - apply (Rmult_lt_compat_r (/ beta)) in H; [|apply Rinv_0_lt_compat; assumption].
      replace (beta * (1 / Th - 1 / t25) * / beta) with (1 / Th - 1 / t25) in H by (field; lra).
      unfold Rdiv. unfold Rdiv in H. lra. }
  tauto.
Qed.

Lemma denominator_pos (t25 b0 beta x : R) :
  0 < t25 -> 0 < b0 -> b0 <= beta -> - b0 / t25 < x -> 0 < 1 / t25 + x / beta.
Proof.
  intros H25 Hb0 Hb Hx.
  assert (Hx' : - beta / t25 < x).
  { apply Rle_lt_trans with (- b0 / t25); [|assumption].
    unfold Rdiv. apply Rmult_le_compat_r; [left; apply Rinv_0_lt_compat; lra | lra]. }
  assert (H : - (1 / t25) < x / beta).
  { apply (Rmult_lt_reg_r beta); [lra|].
    replace (x / beta * beta) with x by (field; lra).
    replace (- (1 / t25) * beta) with (- beta / t25) by (field; lra). assumption. }
  lra.
Qed.

(** ** Soundness of the fixed-point exponential *)

Lemma one_pos : (0 < Cert.one)%Z.
Proof. reflexivity. Qed.

Lemma scale_pos : (0 < Cert.scale)%Z.
Proof. reflexivity. Qed.

Lemma IZR_one_pos : 0 < IZR Cert.one.
Proof. apply IZR_lt, one_pos. Qed.

(** rounding of the fixed-point square *)
Lemma sqr_dn_le (x : Z) : (Cert.sqr_dn x * Cert.one <= x * x)%Z.
Proof.
  unfold Cert.sqr_dn. rewrite Z.shiftr_div_pow2 by (unfold Cert.prec; lia).
  fold Cert.one. rewrite Z.mul_comm. apply Z.mul_div_le, one_pos.
Qed.

Lemma sqr_dn_nonneg (x : Z) : (0 <= Cert.sqr_dn x)%Z.
Proof.
  unfold Cert.sqr_dn. rewrite Z.shiftr_div_pow2 by (unfold Cert.prec; lia).
  apply Z.div_pos; [nia | reflexivity].
Qed.

Lemma ceil_div_ge (a b : Z) : (0 < b)%Z -> (a <= (a + (b - 1)) / b * b)%Z.
Proof.
  intros Hb.
  pose proof (Z.div_mod (a + (b - 1)) b ltac:(lia)) as E.
  pose proof (Z.mod_pos_bound (a + (b - 1)) b Hb) as M.
  nia.
Qed.

Lemma sqr_up_ge (x : Z) : (x * x <= Cert.sqr_up x * Cert.one)%Z.
Proof.
  unfold Cert.sqr_up. rewrite Z.shiftr_div_pow2 by (unfold Cert.prec; lia).
  fold Cert.one. apply ceil_div_ge, one_pos.
Qed.

Lemma exp_double (v : R) : exp (2 * v) = exp v * exp v.
Proof. replace (2 * v) with (v + v) by lra. apply exp_plus. Qed.


Lemma fx_sq_dn (s y o : R) : 0 < o -> s * o <= y * y -> s / o <= y / o * (y / o).
Proof.
  intros Ho H.
  replace (s / o) with (s * o * / (o * o)) by (field; lra).
  replace (y / o * (y / o)) with (y * y * / (o * o)) by (field; lra).
  apply Rmult_le_compat_r; [| assumption].
  left. apply Rinv_0_lt_compat. apply Rmult_lt_0_compat; assumption.
Qed.

Lemma fx_sq_up (s y o : R) : 0 < o -> y * y <= s * o -> y / o * (y / o) <= s / o.
Proof.
  intros Ho H.
  replace (s / o) with (s * o * / (o * o)) by (field; lra).
  replace (y / o * (y / o)) with (y * y * / (o * o)) by (field; lra).
  apply Rmult_le_compat_r; [| assumption].
  left. apply Rinv_0_lt_compat. apply Rmult_lt_0_compat; assumption.
Qed.

Lemma iter_dn_sound (n : nat) (x : Z) (v : R) :
  (0 <= x)%Z -> IZR x / IZR Cert.one <= exp v ->
  (0 <= Nat.iter n Cert.sqr_dn x)%Z /\
  IZR (Nat.iter n Cert.sqr_dn x) / IZR Cert.one <= exp (2 ^ n * v).
Proof.
  intros Hx Hv. induction n as [| n [IH0 IH]].
  - simpl. rewrite Rmult_1_l. split; assumption.
  - simpl Nat.iter. set (y := Nat.iter n Cert.sqr_dn x) in *.
    split; [apply sqr_dn_nonneg |].
    replace (2 ^ S n * v) with (2 * (2 ^ n * v)) by (simpl; lra).
    rewrite exp_double.
    pose proof IZR_one_pos as H1.
    assert (Hy : 0 <= IZR y / IZR Cert.one).
    { apply Rmult_le_pos; [apply IZR_le; assumption | left; apply Rinv_0_lt_compat; assumption]. }
    apply Rle_trans with (IZR y / IZR Cert.one * (IZR y / IZR Cert.one)).
    + apply fx_sq_dn; [assumption |].
      rewrite <- !mult_IZR. apply IZR_le, sqr_dn_le.
    + apply Rmult_le_compat; assumption.
Qed.

Lemma iter_up_sound (n : nat) (x : Z) (v : R) :
  exp v <= IZR x / IZR Cert.one ->
  exp (2 ^ n * v) <= IZR (Nat.iter n Cert.sqr_up x) / IZR Cert.one.
Proof.
  intros Hv. induction n as [| n IH].
  - simpl. rewrite Rmult_1_l. assumption.
  - simpl Nat.iter. set (y := Nat.iter n Cert.sqr_up x) in *.
    replace (2 ^ S n * v) with (2 * (2 ^ n * v)) by (simpl; lra).
    rewrite exp_double.
    pose proof IZR_one_pos as H1.
    pose proof (exp_pos (2 ^ n * v)) as Hp.
    apply Rle_trans with (IZR y / IZR Cert.one * (IZR y / IZR Cert.one)).
    + apply Rmult_le_compat; lra.
    + apply fx_sq_up; [assumption |].
      rewrite <- !mult_IZR. apply IZR_le, sqr_up_ge.
Qed.

(** exp u between 1 + u and 1 / (1 - u) *)
Lemma exp_le_inv (u : R) : u < 1 -> exp u <= 1 / (1 - u).
Proof.
  intros Hu. pose proof (exp_ineq1_le (- u)) as H.
  pose proof (exp_pos (- u)) as Hp.
  replace (exp u) with (/ exp (- u)).
  2:{ rewrite exp_Ropp. apply Rinv_inv. }
  unfold Rdiv. rewrite Rmult_1_l.
  apply Rinv_le_contravar; lra.
Qed.

Lemma pow2_scale : 2 ^ Cert.halvings = IZR Cert.scale.
Proof. unfold Cert.scale. rewrite <- pow_IZR. reflexivity. Qed.

Lemma Q2R_split (L : Q) : Q2R L = IZR (Qnum L) / IZR (Zpos (Qden L)).
Proof. reflexivity. Qed.

Lemma exp_dn_sound (L : Q) :
  Cert.exp_arg_ok L = true -> IZR (Cert.exp_dn L) / IZR Cert.one <= exp (Q2R L).
Proof.
  intros Hok. unfold Cert.exp_arg_ok in Hok.
  apply andb_prop in Hok. destruct Hok as [H1 H2].
  apply Z.ltb_lt in H1. apply Z.ltb_lt in H2.
  set (d := Zpos (Qden L)) in *. set (n := Qnum L) in *.
  pose proof scale_pos as Hs. pose proof IZR_one_pos as Ho.
  assert (Hd : (0 < d)%Z) by (unfold d; lia).
  assert (Hdk : (0 < d * Cert.scale)%Z) by nia.
  assert (HdkR : 0 < IZR d * IZR Cert.scale).
  { rewrite <- mult_IZR. apply IZR_lt. assumption. }
  assert (HdR : 0 < IZR d) by (apply IZR_lt; assumption).
  assert (HsR : 0 < IZR Cert.scale) by (apply IZR_lt; assumption).
  set (u := Q2R L / IZR Cert.scale).
  replace (Q2R L) with (2 ^ Cert.halvings * u).
  2:{ unfold u. rewrite pow2_scale. field. lra. }
  unfold Cert.exp_dn. fold d n.
  apply iter_dn_sound.
  - apply Z.div_pos; [| assumption]. pose proof one_pos. nia.
  - apply Rle_trans with (1 + u); [| apply exp_ineq1_le].
    pose proof (Z.mul_div_le (Cert.one * (d * Cert.scale + n)) (d * Cert.scale) Hdk) as H.
    apply IZR_le in H. rewrite !mult_IZR, plus_IZR, mult_IZR in H.
    set (w := IZR ((Cert.one * (d * Cert.scale + n)) / (d * Cert.scale))) in *.
    unfold u. rewrite Q2R_split. fold d n.
    apply (Rmult_le_reg_r (IZR Cert.one * (IZR d * IZR Cert.scale))).
    { apply Rmult_lt_0_compat; assumption. }
    replace (w / IZR Cert.one * (IZR Cert.one * (IZR d * IZR Cert.scale)))
      with (IZR d * IZR Cert.scale * w) by (field; lra).
    replace ((1 + IZR n / IZR d / IZR Cert.scale) * (IZR Cert.one * (IZR d * IZR Cert.scale)))
      with (IZR Cert.one * (IZR d * IZR Cert.scale + IZR n)) by (field; lra).
    assumption.
Qed.

Lemma exp_up_sound (L : Q) :
  Cert.exp_arg_ok L = true -> exp (Q2R L) <= IZR (Cert.exp_up L) / IZR Cert.one.
Proof.
  intros Hok. unfold Cert.exp_arg_ok in Hok.
  apply andb_prop in Hok. destruct Hok as [H1 H2].
  apply Z.ltb_lt in H1. apply Z.ltb_lt in H2.
  set (d := Zpos (Qden L)) in *. set (n := Qnum L) in *.
  pose proof scale_pos as Hs. pose proof IZR_one_pos as Ho.
  assert (Hd : (0 < d)%Z) by (unfold d; lia).
  assert (Hdk : (0 < d * Cert.scale - n)%Z) by lia.
  assert (HdkR : 0 < IZR d * IZR Cert.scale - IZR n).
  { rewrite <- mult_IZR, <- minus_IZR. apply IZR_lt. assumption. }
  assert (HdR : 0 < IZR d) by (apply IZR_lt; assumption).
  assert (HsR : 0 < IZR Cert.scale) by (apply IZR_lt; assumption).
  set (u := Q2R L / IZR Cert.scale).
  assert (Hu : 1 - u = (IZR d * IZR Cert.scale - IZR n) / (IZR d * IZR Cert.scale)).
  { unfold u. rewrite Q2R_split. fold d n. field. lra. }
  assert (Hu1 : u < 1).
  { assert (0 < 1 - u); [| lra]. rewrite Hu. apply Rdiv_lt_0_compat; [assumption|].
    apply Rmult_lt_0_compat; assumption. }
  replace (Q2R L) with (2 ^ Cert.halvings * u).
  2:{ unfold u. rewrite pow2_scale. field. lra. }
  unfold Cert.exp_up. fold d n.
  apply iter_up_sound.
  apply Rle_trans with (1 / (1 - u)); [apply exp_le_inv; assumption |].
  replace (Cert.one * (d * Cert.scale) + (d * Cert.scale - n - 1))%Z
    with (Cert.one * (d * Cert.scale) + ((d * Cert.scale - n) - 1))%Z by lia.
  pose proof (ceil_div_ge (Cert.one * (d * Cert.scale)) (d * Cert.scale - n) Hdk) as H.
  apply IZR_le in H. rewrite !mult_IZR, minus_IZR, mult_IZR in H.
  set (w := IZR ((Cert.one * (d * Cert.scale) + (d * Cert.scale - n - 1)) / (d * Cert.scale - n))) in *.
  rewrite Hu.
  apply (Rmult_le_reg_r (IZR Cert.one * (IZR d * IZR Cert.scale - IZR n))).
  { apply Rmult_lt_0_compat; assumption. }
  replace (w / IZR Cert.one * (IZR Cert.one * (IZR d * IZR Cert.scale - IZR n)))
    with (w * (IZR d * IZR Cert.scale - IZR n)) by (field; lra).
  replace (1 / ((IZR d * IZR Cert.scale - IZR n) / (IZR d * IZR Cert.scale)) *
           (IZR Cert.one * (IZR d * IZR Cert.scale - IZR n)))
    with (IZR Cert.one * (IZR d * IZR Cert.scale)) by (field; lra).
  assumption.
Qed.

(** ** Soundness of the settled comparisons *)

Lemma Q2R_LQ (th : Q) : 0 < Q2R th + 273.15 - 0.5 -> Q2R (Cert.LQ th) = Lr (Q2R th).
Proof.
  intros H. unfold Cert.LQ, Lr.
  rewrite (Qeq_eqR _ _ (Qred_correct _)).
  assert (E : Q2R (th + (27265 # 100)) = Q2R th + 273.15 - 0.5).
  { rewrite Q2R_plus. unfold Q2R at 2. simpl. lra. }
  assert (E1 : Q2R 3950 = 3950) by (unfold Q2R; simpl; lra).
  assert (E2 : Q2R (100 # 29815) = 1 / (25 + 273.15)).
  { unfold Q2R; simpl. field. }
  rewrite Q2R_mult, Q2R_minus, Q2R_inv.
  - rewrite E, E1, E2. field. lra.
  - intros Hq. apply Qeq_eqR in Hq. rewrite E in Hq. unfold Q2R in Hq at 2. simpl in Hq. lra.
Qed.

Lemma thr_bounds_sound (th : Q) (b : Z * Z) :
  Cert.thr_bounds th = Some b -> bounds_for (Q2R th) b.
Proof.
  unfold Cert.thr_bounds. destruct (Qlt_le_dec 0 (th + (27265 # 100))) as [Hlt |]; [| discriminate].
  destruct (Cert.exp_arg_ok (Cert.LQ th)) eqn:Hok; [| discriminate].
  intros E. injection E as <-.
  assert (H : 0 < Q2R th + 273.15 - 0.5).
  { apply Qlt_Rlt in Hlt. rewrite Q2R_plus in Hlt. unfold Q2R in Hlt at 1 3. simpl in Hlt. lra. }
  split; [assumption |]. simpl. rewrite <- (Q2R_LQ th H).
  split; [apply exp_dn_sound | apply exp_up_sound]; assumption.
Qed.

(** facts about qcode *)
Lemma in_range_spec (c : Z) : Cert.in_range c = true -> (0 < c < 1023)%Z.
Proof. unfold Cert.in_range. intros H. apply andb_prop in H. destruct H as [H1 H2].
  apply Z.ltb_lt in H1. apply Z.ltb_lt in H2. lia. Qed.

Lemma qcode_den_pos (c : Z) : (c < 1023)%Z -> 0 < IZR (1000 * (1023 - c)).
Proof. intros H. apply IZR_lt. lia. Qed.

Lemma qcode_pos (c : Z) : (0 < c < 1023)%Z -> 0 < qcode c.
Proof.
  intros H. unfold qcode. apply Rdiv_lt_0_compat; [apply IZR_lt; lia | apply qcode_den_pos; lia].
Qed.

Lemma qcode_gt (c h : Z) :
  (c < 1023)%Z -> (h * (1000 * (1023 - c)) < 47 * c * Cert.one)%Z ->
  IZR h / IZR Cert.one < qcode c.
Proof.
  intros Hc H. apply IZR_lt in H. rewrite (mult_IZR h), (mult_IZR (47 * c)) in H.
  pose proof (qcode_den_pos c Hc) as Hd. pose proof IZR_one_pos as Ho.
  unfold qcode.
  apply (Rmult_lt_reg_r (IZR Cert.one * IZR (1000 * (1023 - c)))).
  { apply Rmult_lt_0_compat; assumption. }
  replace (IZR h / IZR Cert.one * (IZR Cert.one * IZR (1000 * (1023 - c))))
    with (IZR h * IZR (1000 * (1023 - c))) by (field; lra).
  replace (IZR (47 * c) / IZR (1000 * (1023 - c)) * (IZR Cert.one * IZR (1000 * (1023 - c))))
    with (IZR (47 * c) * IZR Cert.one) by (field; lra).
  assumption.
Qed.

Lemma qcode_le (c l : Z) :
  (c < 1023)%Z -> (47 * c * Cert.one <= l * (1000 * (1023 - c)))%Z ->
  qcode c <= IZR l / IZR Cert.one.
Proof.
  intros Hc H. apply IZR_le in H. rewrite (mult_IZR l), (mult_IZR (47 * c)) in H.
  pose proof (qcode_den_pos c Hc) as Hd. pose proof IZR_one_pos as Ho.
  unfold qcode.
  apply (Rmult_le_reg_r (IZR Cert.one * IZR (1000 * (1023 - c)))).
  { apply Rmult_lt_0_compat; assumption. }
  replace (IZR l / IZR Cert.one * (IZR Cert.one * IZR (1000 * (1023 - c))))
    with (IZR l * IZR (1000 * (1023 - c))) by (field; lra).
  replace (IZR (47 * c) / IZR (1000 * (1023 - c)) * (IZR Cert.one * IZR (1000 * (1023 - c))))
    with (IZR (47 * c) * IZR Cert.one) by (field; lra).
  assumption.
Qed.

(** The coldest-beta divisor bound: exp (-3380/298.15) is below every qcode. *)
Lemma exp_floor_bound : exp (- 3380 / (25 + 273.15)) < 1 / 80000.
Proof.
  set (L := (- (338000 # 29815))%Q).
  assert (E : - 3380 / (25 + 273.15) = Q2R L).
  { unfold L, Q2R. simpl. field. }
  rewrite E.
  apply Rle_lt_trans with (IZR (Cert.exp_up L) / IZR Cert.one).
  - apply exp_up_sound. vm_compute. reflexivity.
  - pose proof IZR_one_pos as Ho.
    apply (Rmult_lt_reg_r (IZR Cert.one * 80000)); [lra |].
    replace (IZR (Cert.exp_up L) / IZR Cert.one * (IZR Cert.one * 80000))
      with (IZR (Cert.exp_up L) * 80000) by (field; lra).
    replace (1 / 80000 * (IZR Cert.one * 80000)) with (IZR Cert.one) by (field; lra).
    rewrite <- mult_IZR. apply IZR_lt. vm_compute. reflexivity.
Qed.

Lemma qcode_lower (c : Z) : (0 < c < 1023)%Z -> 1 / 80000 < qcode c.
Proof.
  intros H. unfold qcode. pose proof (qcode_den_pos c ltac:(lia)) as Hd.
  apply (Rmult_lt_reg_r (80000 * IZR (1000 * (1023 - c)))); [lra |].
  replace (1 / 80000 * (80000 * IZR (1000 * (1023 - c)))) with (IZR (1000 * (1023 - c))) by (field; lra).
  replace (IZR (47 * c) / IZR (1000 * (1023 - c)) * (80000 * IZR (1000 * (1023 - c))))
    with (IZR (47 * c) * 80000) by (field; lra).
  rewrite <- mult_IZR. apply IZR_lt. lia.
Qed.

Lemma rl_lower (c : Z) : (0 < c < 1023)%Z -> - 3380 / (25 + 273.15) < ln (qcode c).
Proof.
  intros H. pose proof (qcode_pos c H) as Hq.
  rewrite <- (ln_exp (- 3380 / (25 + 273.15))).
  apply ln_increasing; [apply exp_pos |].
  pose proof exp_floor_bound. pose proof (qcode_lower c H). lra.
Qed.

Lemma marlin_divisor_pos (c : Z) (beta : R) :
  (0 < c < 1023)%Z -> 3380 <= beta -> 0 < 1 / (25 + 273.15) + ln (qcode c) / beta.
Proof.
  intros H Hb. apply (denominator_pos _ 3380); try lra. apply rl_lower; assumption.
Qed.

Lemma marlin_tx (c : Z) (beta : R) :
  (0 < c < 1023)%Z -> 3380 <= beta ->
  tx marlin beta (ln (qcode c)) = Some (tval marlin beta (ln (qcode c))).
Proof.
  intros H Hb. pose proof (marlin_divisor_pos c beta H Hb) as HD.
  apply tx_some; simpl; lra.
Qed.

Lemma marlin_rlval (c : Z) :
  (0 < c < 1023)%Z -> rlval marlin (IZR c) = Some (ln (qcode c)).
Proof.
  intros H. unfold rlval.
  assert (Hc : IZR c < 1023) by (apply IZR_lt; lia).
  assert (Hc0 : 0 < IZR c) by (apply IZR_lt; lia).
  rewrite v2r_some; simpl; try lra.
  rewrite div_some by lra. simpl.
  assert (E : IZR c / 1023 * 4700 / (1 - IZR c / 1023) / 1e5 = qcode c).
  { unfold qcode. rewrite !mult_IZR, minus_IZR. field. lra. }
  rewrite E. apply log_some. apply qcode_pos; assumption.
Qed.

(** One comparison of the loop, settled by the bounds. *)
Lemma tx2_lt_iff (c : Z) (th : R) :
  (0 < c < 1023)%Z -> 0 < th + 273.15 - 0.5 ->
  (tval marlin 3950 (ln (qcode c)) < th <-> exp (Lr th) < qcode c).
Proof.
  intros H Hth. pose proof (qcode_pos c H) as Hq.
  pose proof (marlin_divisor_pos c 3950 H ltac:(lra)) as HD.
  unfold tval. simpl tZero.
  rewrite (tval_lt_iff (25 + 273.15) 273.15 3950 (ln (qcode c)) th) by lra.
  fold (Lr th). split; intros HL.
  - rewrite <- (exp_ln (qcode c)) by assumption. apply exp_increasing; assumption.
  - rewrite <- (ln_exp (Lr th)). apply ln_increasing; [apply exp_pos | assumption].
Qed.

Lemma keepZ_sound (th : R) (b : Z * Z) (c : Z) :
  bounds_for th b -> (0 < c < 1023)%Z -> Cert.keepZ b c = true ->
  tval marlin 3950 (ln (qcode c)) < th.
Proof.
  intros [Hth [_ Hhi]] Hc Hk. unfold Cert.keepZ in Hk. apply Z.ltb_lt in Hk.
  apply tx2_lt_iff; try assumption.
  apply Rle_lt_trans with (IZR (snd b) / IZR Cert.one); [assumption |].
  apply qcode_gt; [lia | assumption].
Qed.

Lemma dropZ_sound (th : R) (b : Z * Z) (c : Z) :
  bounds_for th b -> (0 < c < 1023)%Z -> Cert.dropZ b c = true ->
  ~ tval marlin 3950 (ln (qcode c)) < th.
Proof.
  intros [Hth [Hlo _]] Hc Hk. unfold Cert.dropZ in Hk. apply Z.leb_le in Hk.
  intros Hlt. apply tx2_lt_iff in Hlt; try assumption.
  pose proof (qcode_le c (fst b) ltac:(lia) Hk). lra.
Qed.

(** One turn of the loop on a sampled code. *)
Lemma loop_marlin_cons (step th : R) (c : Z) (rest : list (R * R)) :
  (0 < c < 1023)%Z ->
  loop marlin step th (mpt c :: rest) =
  if Rlt_dec (tval marlin 3950 (ln (qcode c))) th
  then rows <- loop marlin step (th - step) rest ;; Some (mrow c :: rows)
  else loop marlin step th rest.
Proof.
  intros H. unfold mpt. simpl loop.
  rewrite !marlin_tx by (assumption || lra). reflexivity.
Qed.

Lemma runQ_cons (step th : Q) (b : Z * Z) (c : Z) (rest : list Z) :
  Cert.runQ step th b (c :: rest) =
  if Cert.in_range c then
    if Cert.keepZ b c then
      match (if Qeq_bool (Qred (th - step)) th then Some b
             else Cert.thr_bounds (Qred (th - step))) with
      | Some b' => option_map (cons c) (Cert.runQ step (Qred (th - step)) b' rest)
      | None => None
      end
    else if Cert.dropZ b c then Cert.runQ step th b rest
    else None
  else None.
Proof. reflexivity. Qed.

Lemma runQ_sound (step : Q) (cs : list Z) :
  forall (th : Q) (b : Z * Z) (kept : list Z),
    bounds_for (Q2R th) b -> Cert.runQ step th b cs = Some kept ->
    loop marlin (Q2R step) (Q2R th) (map mpt cs) = Some (map mrow kept).
Proof.
  induction cs as [| c rest IH]; intros th b kept Hb Hrun.
  - simpl in Hrun. injection Hrun as <-. reflexivity.
  - rewrite runQ_cons in Hrun. destruct (Cert.in_range c) eqn:Hr; [| discriminate].
    apply in_range_spec in Hr.
    simpl map. rewrite loop_marlin_cons by assumption.
    destruct (Cert.keepZ b c) eqn:Hk.
    + pose proof (keepZ_sound _ _ _ Hb Hr Hk) as Hlt.
      destruct (Rlt_dec (tval marlin 3950 (ln (qcode c))) (Q2R th)); [| contradiction].
      set (th' := Qred (th - step)) in *.
      assert (Eth : Q2R th' = Q2R th - Q2R step).
      { unfold th'. rewrite (Qeq_eqR _ _ (Qred_correct _)). apply Q2R_minus. }
      destruct (if Qeq_bool th' th then Some b else Cert.thr_bounds th') as [b' |] eqn:Hb';
        [| discriminate].
      assert (Hb2 : bounds_for (Q2R th') b').
      { destruct (Qeq_bool th' th) eqn:Hq.
        - injection Hb' as <-. apply Qeq_bool_eq in Hq. apply Qeq_eqR in Hq.
          rewrite Hq. assumption.
        - apply thr_bounds_sound. assumption. }
      destruct (Cert.runQ step th' b' rest) as [k |] eqn:Hrest; [| discriminate].
      simpl in Hrun. injection Hrun as <-.
      rewrite <- Eth. rewrite (IH th' b' k Hb2 Hrest). reflexivity.
    + destruct (Cert.dropZ b c) eqn:Hd; [| discriminate].
      pose proof (dropZ_sound _ _ _ Hb Hr Hd) as Hnlt.
      destruct (Rlt_dec (tval marlin 3950 (ln (qcode c))) (Q2R th)); [contradiction |].
      apply (IH th b kept Hb Hrun).
Qed.

Lemma run_sound (step th : Q) (cs kept : list Z) :
  Cert.run step th cs = Some kept ->
  loop marlin (Q2R step) (Q2R th) (map mpt cs) = Some (map mrow kept).
Proof.
  unfold Cert.run. destruct (Cert.thr_bounds th) as [b |] eqn:Hb; [| discriminate].
  apply runQ_sound. apply thr_bounds_sound. assumption.
Qed.



(** ** The sampled points and the tables of the script *)

Lemma bind_some {A B : Type} (a : A) (f : A -> option B) : Py.bind (Some a) f = f a.
Proof. reflexivity. Qed.

Lemma codes_marlin : codes marlin = sampled_codes.
Proof. reflexivity. Qed.

Lemma adc_marlin : adc marlin = Some (map IZR sampled_codes).
Proof. unfold adc. rewrite codes_marlin. reflexivity. Qed.

Lemma sampled_in_range : Forall (fun c => (0 < c < 1023)%Z) sampled_codes.
Proof.
  apply Forall_forall. intros c Hc. apply in_range_spec.
  assert (H : forallb Cert.in_range sampled_codes = true) by (vm_compute; reflexivity).
  rewrite forallb_forall in H. apply H. assumption.
Qed.

Lemma mapM_map_in {A B C : Type} (f : B -> option C) (g : A -> C) (h : A -> B)
    (P : A -> Prop) (l : list A) :
  (forall a, P a -> f (h a) = Some (g a)) -> Forall P l ->
  Py.mapM f (map h l) = Some (map g l).
Proof.
  intros Hf. induction 1 as [| a l Ha _ IH]; simpl; [reflexivity |].
  rewrite (Hf a Ha), IH. reflexivity.
Qed.

Lemma rlvals_marlin :
  rlvals marlin = Some (map (fun c => ln (qcode c)) sampled_codes).
Proof.
  unfold rlvals. rewrite adc_marlin. rewrite !bind_some.
  apply (mapM_map_in _ _ _ (fun c => (0 < c < 1023)%Z)); [| apply sampled_in_range].
  intros c Hc. apply marlin_rlval. assumption.
Qed.

Lemma samples_marlin : samples marlin = Some (map mpt sampled_codes).
Proof.
  unfold samples. rewrite adc_marlin. rewrite !bind_some.
  apply (mapM_map_in _ _ _ (fun c => (0 < c < 1023)%Z)); [| apply sampled_in_range].
  intros c Hc. rewrite marlin_rlval by assumption. reflexivity.
Qed.

Lemma step_normal (tbl : Z) :
  tbl <> 0%Z -> temperatureStepSize marlin tbl = Some (Q2R (315 # 100)).
Proof.
  intros H. unfold temperatureStepSize.
  destruct (Z.eqb_spec tbl 0) as [E | _]; [contradiction |].
  rewrite div_some by lra. f_equal. unfold Q2R. simpl. lra.
Qed.

Lemma Q2R_300 : Q2R 300 = 300.
Proof. unfold Q2R. simpl. lra. Qed.

Lemma table_normal (tbl : Z) :
  tbl <> 0%Z -> table marlin tbl = Some (map mrow kept_normal).
Proof.
  intros H. unfold table. rewrite samples_marlin, (step_normal tbl H). rewrite !bind_some.
  change (maxTemp marlin) with 300. rewrite <- Q2R_300.
  apply run_sound. exact run_normal.
Qed.

Lemma table_dense : table marlin 0 = Some (map mrow kept_dense).
Proof.
  unfold table. rewrite samples_marlin. rewrite bind_some.
  change (temperatureStepSize marlin 0) with (Some 0). rewrite bind_some.
  change (maxTemp marlin) with 300. rewrite <- Q2R_300.
  replace 0 with (Q2R 0) at 1 by (unfold Q2R; simpl; lra).
  apply run_sound. exact run_dense.
Qed.


(** ** The selection loop, for any constants *)

Lemma loop_below (cfg : Config) (step : R) (pts : list (R * R)) :
  0 <= step ->
  forall th rows, loop cfg step th pts = Some rows ->
    Forall (fun r => row_tx2 r < th) rows.
Proof.
  intros Hs. induction pts as [| [a x] rest IH]; intros th rows H.
  - injection H as <-. constructor.
  - simpl in H.
    destruct (tx cfg (TXBETA1 cfg) x) as [t1 |]; [| discriminate].
    destruct (tx cfg (TXBETA2 cfg) x) as [t2 |]; [| discriminate].
    destruct (tx cfg (TXBETA3 cfg) x) as [t3 |]; [| discriminate].
    simpl in H. destruct (Rlt_dec t2 th) as [Hlt | Hge].
    + destruct (loop cfg step (th - step) rest) as [rows' |] eqn:E; [| discriminate].
      injection H as <-. constructor; [assumption |].
      eapply Forall_impl; [| apply (IH _ _ E)]. simpl. intros r Hr. lra.
    + apply (IH _ _ H).
Qed.

Lemma loop_index (cfg : Config) (step : R) (pts : list (R * R)) :
  forall th rows, loop cfg step th pts = Some rows ->
    forall k r, nth_error rows k = Some r -> row_tx2 r < th - INR k * step.
Proof.
  induction pts as [| [a x] rest IH]; intros th rows H k r Hk.
  - injection H as <-. destruct k; discriminate.
  - simpl in H.
    destruct (tx cfg (TXBETA1 cfg) x) as [t1 |]; [| discriminate].
    destruct (tx cfg (TXBETA2 cfg) x) as [t2 |]; [| discriminate].
    destruct (tx cfg (TXBETA3 cfg) x) as [t3 |]; [| discriminate].
    simpl in H. destruct (Rlt_dec t2 th) as [Hlt | Hge].
    + destruct (loop cfg step (th - step) rest) as [rows' |] eqn:E; [| discriminate].
      injection H as <-. destruct k as [| k].
      * injection Hk as <-. simpl. lra.
      * simpl in Hk. pose proof (IH _ _ E k r Hk) as Hr.
        rewrite S_INR. lra.
    + apply (IH _ _ H k r Hk).
Qed.

Lemma below_spec (th : R) (r : Row) : below th r = true <-> row_tx2 r < th.
Proof.
  unfold below. destruct (Rlt_dec (row_tx2 r) th); split; intros; try discriminate; tauto.
Qed.

Lemma loop_dense (cfg : Config) (pts : list (R * R)) :
  forall th, loop cfg 0 th pts =
    all <- Py.mapM (annotate cfg) pts ;; Some (filter (below th) all).
Proof.
  induction pts as [| [a x] rest IH]; intros th; [reflexivity |].
  simpl. unfold annotate at 1. simpl fst. simpl snd.
  destruct (tx cfg (TXBETA1 cfg) x) as [t1 |]; [| reflexivity].
  destruct (tx cfg (TXBETA2 cfg) x) as [t2 |]; [| reflexivity].
  destruct (tx cfg (TXBETA3 cfg) x) as [t3 |]; [| reflexivity].
  simpl Py.bind. rewrite Rminus_0_r, !IH.
  destruct (Py.mapM (annotate cfg) rest) as [all |]; simpl Py.bind.
  - simpl filter.
    destruct (below th (mkRow a x t1 t2 t3)) eqn:E;
      destruct (Rlt_dec t2 th) as [Hlt | Hge]; try reflexivity.
    + apply below_spec in E. contradiction.
    + apply (proj2 (below_spec th (mkRow a x t1 t2 t3))) in Hlt. congruence.
  - destruct (Rlt_dec t2 th); reflexivity.
Qed.

Lemma mapM_length {A B : Type} (f : A -> option B) (l : list A) :
  forall bs, Py.mapM f l = Some bs -> length bs = length l.
Proof.
  induction l as [| a l IH]; intros bs H; simpl in H.
  - injection H as <-. reflexivity.
  - destruct (f a); [| discriminate]. destruct (Py.mapM f l) as [bs' |]; [| discriminate].
    simpl in H. injection H as <-. simpl. f_equal. apply IH. reflexivity.
Qed.

(** ** The two conversions *)

Lemma v2r_closed (cfg : Config) (vr : R) :
  adcFS cfg <> 0 -> vr <> adcFS cfg ->
  v2r cfg vr = Some (vr * rPullup cfg / (adcFS cfg - vr)).
Proof.
  intros Hfs Hvr. rewrite v2r_some by assumption. f_equal. field. lra.
Qed.

Lemma v2r_none_iff (cfg : Config) (vr : R) :
  adcFS cfg <> 0 -> (v2r cfg vr = None <-> vr = adcFS cfg).
Proof.
  intros Hfs. split.
  - intros H. destruct (Req_dec_T vr (adcFS cfg)) as [E | N]; [assumption |].
    rewrite v2r_some in H by assumption. discriminate.
  - intros ->. unfold v2r. rewrite div_some by assumption. rewrite bind_some.
    replace (1 - adcFS cfg / adcFS cfg) with 0 by (field; assumption).
    apply div_zero.
Qed.

(** C4: for every code c in the open interval (0, adcFS), converting the code
    to a resistance with v2r and back with r2v returns c exactly over the
    reals (for any nonzero pull-up resistance). *)
Theorem roundtrip_r2v_v2r (cfg : Config) (c : R) :
  rPullup cfg <> 0 -> 0 < c < adcFS cfg ->
  exists r, v2r cfg c = Some r /\ r2v cfg r = Some c.
Proof.
  intros Hp [H0 H1].
  exists (c * rPullup cfg / (adcFS cfg - c)). split.
  - apply v2r_closed; lra.
  - unfold r2v.
    assert (E : c * rPullup cfg / (adcFS cfg - c) + rPullup cfg =
                rPullup cfg * adcFS cfg / (adcFS cfg - c)) by (field; lra).
    rewrite div_some.
    + f_equal. field. repeat split; try lra.
      intros H. 
      assert (H2 : c * rPullup cfg + rPullup cfg * (adcFS cfg - c) = rPullup cfg * adcFS cfg) by ring.
      rewrite H in H2. symmetry in H2. apply Rmult_integral in H2. lra.
    + rewrite E. intros H.
      apply (f_equal (fun t => t * (adcFS cfg - c))) in H.
      replace (rPullup cfg * adcFS cfg / (adcFS cfg - c) * (adcFS cfg - c))
        with (rPullup cfg * adcFS cfg) in H by (field; lra).
      rewrite Rmult_0_l in H. apply Rmult_integral in H. lra.
Qed.

Lemma roundtrip_r2v_v2r_witness :
  exists r, v2r marlin 511 = Some r /\ r2v marlin r = Some 511.
Proof. apply (roundtrip_r2v_v2r marlin 511); simpl; lra. Defined.

(** C5, as the code has it: a code beyond adcFS raises nothing. *)
Lemma v2r_beyond_full_scale :
  adcFS marlin <= 1024 /\ v2r marlin 1024 = Some (- 4812800).
Proof.
  split; [simpl; lra |].
  rewrite v2r_closed by (simpl; lra). f_equal. simpl. field.
Qed.

(** C5 (amended): v2r has no result only at code = adcFS, where its divisor
    1 - code/adcFS is zero; for every code beyond adcFS it returns a
    negative resistance and signals nothing. *)
Theorem v2r_at_or_beyond_full_scale (cfg : Config) (c : R) :
  0 < adcFS cfg -> 0 < rPullup cfg -> adcFS cfg <= c ->
  (v2r cfg c = None <-> c = adcFS cfg) /\
  (adcFS cfg < c -> exists r, v2r cfg c = Some r /\ r < 0).
Proof.
  intros Hfs Hp Hc. split; [apply v2r_none_iff; lra |].
  intros Hlt. exists (c * rPullup cfg / (adcFS cfg - c)). split.
  - apply v2r_closed; lra.
  - replace (c * rPullup cfg / (adcFS cfg - c))
      with (- (c * rPullup cfg / (c - adcFS cfg))) by (field; lra).
    apply Ropp_lt_gt_0_contravar. apply Rdiv_lt_0_compat; [| lra].
    apply Rmult_lt_0_compat; lra.
Qed.

Lemma v2r_at_or_beyond_full_scale_witness :
  (v2r marlin 1024 = None <-> 1024 = adcFS marlin) /\
  (adcFS marlin < 1024 -> exists r, v2r marlin 1024 = Some r /\ r < 0).
Proof. apply (v2r_at_or_beyond_full_scale marlin 1024); simpl; lra. Defined.

(** ** The projection *)

(** C8: for every positive beta the projection at log ratio 0 is 25.5 with
    the bias and floors to 25, whatever the beta. *)
Theorem tx_at_reference (beta : R) :
  0 < beta ->
  exists t, tx marlin beta 0 = Some t /\ t = 25.5 /\ Py.floor t = 25%Z.
Proof.
  intros Hb. exists (tval marlin beta 0).
  assert (E : tval marlin beta 0 = 25.5).
  { unfold tval. simpl tZero.
    replace (0 / beta) with 0 by (field; lra). rewrite Rplus_0_r.
    field_simplify_eq; lra. }
  split; [| split].
  - apply tx_some; simpl; lra.
  - exact E.
  - rewrite E. apply Zfloor_eq. lra.
Qed.

Lemma tx_at_reference_witness :
  exists t, tx marlin 3950 0 = Some t /\ t = 25.5 /\ Py.floor t = 25%Z.
Proof. apply (tx_at_reference 3950). lra. Defined.

Lemma T_some (cfg : Config) (beta x : R) :
  25 + tZero cfg <> 0 -> beta <> 0 -> 1 / (25 + tZero cfg) + x / beta <> 0 ->
  T cfg x beta = Some (tval cfg beta x - 0.5).
Proof. intros H1 H2 H3. unfold T. rewrite tx_some by assumption. reflexivity. Qed.

Lemma divisor_order (a x b1 b2 : R) :
  x < 0 -> 0 < b1 < b2 -> 0 < a + x / b1 ->
  0 < a + x / b2 /\ 1 / (a + x / b2) < 1 / (a + x / b1).
Proof.
  intros Hx [Hb1 Hb2] HD1.
  assert (Hlt : x / b1 < x / b2).
  { assert (Hi : / b2 < / b1).
    { apply Rinv_lt_contravar; [apply Rmult_lt_0_compat; lra | assumption]. }
    unfold Rdiv. nra. }
  split; [lra |].
  set (u := a + x / b1) in *. set (v := a + x / b2).
  assert (Huv : u < v) by (unfold u, v; lra).
  unfold Rdiv. rewrite !Rmult_1_l.
  apply Rinv_lt_contravar; [apply Rmult_lt_0_compat; lra | assumption].
Qed.

(** C3 (amended): for a fixed negative log ratio x, in the range where the
    projected absolute temperature is positive (1/298.15 + x/B > 0 at the
    smaller beta), the projection is strictly decreasing in beta: the larger
    beta gives the lower temperature. *)
Theorem T_decreasing_in_beta (x b1 b2 : R) :
  x < 0 -> 0 < b1 < b2 -> 0 < 1 / (25 + tZero marlin) + x / b1 ->
  exists t1 t2,
    T marlin x b1 = Some t1 /\ T marlin x b2 = Some t2 /\ t2 < t1.
Proof.
  intros Hx Hb HD1. simpl in HD1.
  destruct (divisor_order _ x b1 b2 Hx Hb HD1) as [HD2 Hlt].
  exists (tval marlin b1 x - 0.5), (tval marlin b2 x - 0.5).
  split; [| split].
  - apply T_some; simpl; lra.
  - apply T_some; simpl; lra.
  - unfold tval. simpl tZero. lra.
Qed.

Lemma T_decreasing_in_beta_witness :
  exists t1 t2,
    T marlin (-1) 3380 = Some t1 /\ T marlin (-1) 3950 = Some t2 /\ t2 < t1.
Proof.
  apply (T_decreasing_in_beta (-1) 3380 3950); [lra | lra |].
  simpl. 
  assert (1 / 3380 < 1 / (25 + 273.15)).
  { unfold Rdiv. rewrite !Rmult_1_l. apply Rinv_lt_contravar; lra. }
  unfold Rdiv in *. lra.
Defined.

(** C3, as the code has it: at x = -1 the three betas give
    T(3380) > T(3950) > T(4500). *)
Lemma T_at_minus_one :
  exists t1 t2 t3,
    T marlin (-1) 3380 = Some t1 /\ T marlin (-1) 3950 = Some t2 /\
    T marlin (-1) 4500 = Some t3 /\ ~ (t1 < t2 /\ t2 < t3) /\ t3 < t2 < t1.
Proof.
  assert (H0 : 1 / 3380 < 1 / (25 + 273.15)).
  { unfold Rdiv. rewrite !Rmult_1_l. apply Rinv_lt_contravar; lra. }
  assert (H1 : 0 < 1 / (25 + 273.15) + -1 / 3380).
  { unfold Rdiv in *. lra. }
  destruct (divisor_order _ (-1) 3380 3950 ltac:(lra) ltac:(lra) H1) as [H2 L12].
  destruct (divisor_order _ (-1) 3950 4500 ltac:(lra) ltac:(lra) H2) as [H3 L23].
  exists (tval marlin 3380 (-1) - 0.5), (tval marlin 3950 (-1) - 0.5),
         (tval marlin 4500 (-1) - 0.5).
  split; [apply T_some; simpl; lra |].
  split; [apply T_some; simpl; lra |].
  split; [apply T_some; simpl; lra |].
  unfold tval. simpl tZero. split; [| split]; lra.
Qed.

(** ** The tables of the script *)







Lemma lines_normal (tbl : Z) : tbl <> 0%Z -> lines marlin tbl = Some 103%nat.
Proof.
  intros H. unfold lines. rewrite (table_normal tbl H), bind_some.
  rewrite length_map. reflexivity.
Qed.

Lemma lines_dense : lines marlin 0 = Some 984%nat.
Proof.
  unfold lines. rewrite table_dense, bind_some. rewrite length_map. reflexivity.
Qed.

(** C2, as the code has it: the dense table of the script has 984 lines, not
    adcStop - adcStart + 1 = 1001. *)
Lemma dense_table_is_filtered :
  exists n, lines marlin 0 = Some n /\
            n <> Z.to_nat (adcStop marlin - adcStart marlin + 1).
Proof. exists 984%nat. split; [exact lines_dense | vm_compute; discriminate]. Qed.

Lemma table_dense_filter (cfg : Config) :
  table cfg 0 =
  pts <- samples cfg ;;
  all <- Py.mapM (annotate cfg) pts ;;
  Some (filter (below (maxTemp cfg)) all).
Proof.
  unfold table. destruct (samples cfg) as [pts |]; [| reflexivity].
  rewrite !bind_some. change (temperatureStepSize cfg 0) with (Some 0).
  rewrite bind_some. apply loop_dense.
Qed.

Lemma samples_length (cfg : Config) (pts : list (R * R)) :
  samples cfg = Some pts -> length pts = Z.to_nat (numResult cfg).
Proof.
  unfold samples, adc. destruct (numResult cfg <? 0)%Z; [discriminate |].
  rewrite bind_some. intros H. apply mapM_length in H.
  rewrite H, length_map. unfold codes. rewrite length_map, length_seq. reflexivity.
Qed.

(** C2 (amended): in dense mode (table identifier 0, step 0) the threshold
    stays at maxTemp, so the retained rows are exactly the sampled points
    whose tx2 is below maxTemp, in order; their count is at most
    adcStop - adcStart + 1, and with the constants of the script it is 984
    (codes 37 to 1020). *)
Theorem dense_table_rows (cfg : Config) (rows : list Row) :
  table cfg 0 = Some rows ->
  (exists pts all,
     samples cfg = Some pts /\ Py.mapM (annotate cfg) pts = Some all /\
     rows = filter (below (maxTemp cfg)) all) /\
  (length rows <= Z.to_nat (adcStop cfg - adcStart cfg + 1))%nat /\
  table marlin 0 = Some (map mrow kept_dense) /\
  lines marlin 0 = Some 984%nat.
Proof.
  intros H. rewrite table_dense_filter in H.
  destruct (samples cfg) as [pts |] eqn:Hs; [| discriminate].
  rewrite bind_some in H.
  destruct (Py.mapM (annotate cfg) pts) as [all |] eqn:Ha; [| discriminate].
  rewrite bind_some in H. injection H as <-.
  split; [exists pts, all; repeat split; assumption || reflexivity |].
  split; [| split; [exact table_dense | exact lines_dense]].
  apply Nat.le_trans with (length all); [apply filter_length_le |].
  rewrite (mapM_length _ _ _ Ha), (samples_length _ _ Hs). apply Nat.le_refl.
Qed.

Lemma dense_table_rows_witness :
  (exists pts all,
     samples marlin = Some pts /\ Py.mapM (annotate marlin) pts = Some all /\
     map mrow kept_dense = filter (below (maxTemp marlin)) all) /\
  (length (map mrow kept_dense)
     <= Z.to_nat (adcStop marlin - adcStart marlin + 1))%nat /\
  table marlin 0 = Some (map mrow kept_dense) /\
  lines marlin 0 = Some 984%nat.
Proof. apply (dense_table_rows marlin). exact table_dense. Defined.

(** C9: in every mode (any table identifier, dense mode included) each
    retained row has tx2 strictly below maxTemp, whenever the step is not
    negative (minTemp <= maxTemp). *)
Theorem retained_below_maxTemp (cfg : Config) (tbl : Z) (rows : list Row) :
  minTemp cfg <= maxTemp cfg ->
  table cfg tbl = Some rows ->
  Forall (fun r => row_tx2 r < maxTemp cfg) rows.
Proof.
  intros Hm H. unfold table in H.
  destruct (samples cfg) as [pts |]; [| discriminate]. rewrite bind_some in H.
  destruct (temperatureStepSize cfg tbl) as [step |] eqn:Hs; [| discriminate].
  rewrite bind_some in H. apply (loop_below cfg step pts); [| assumption].
  unfold temperatureStepSize in Hs. destruct (tbl =? 0)%Z.
  - injection Hs as <-. lra.
  - rewrite div_some in Hs by lra. injection Hs as <-. lra.
Qed.

Lemma retained_below_maxTemp_witness :
  Forall (fun r => row_tx2 r < maxTemp marlin) (map mrow kept_dense).
Proof.
  apply (retained_below_maxTemp marlin 0); [simpl; lra | exact table_dense].
Defined.


Lemma skipn_In_nth_error {A : Type} (n : nat) (l : list A) (a : A) :
  In a (skipn n l) -> exists k, (n <= k)%nat /\ nth_error l k = Some a.
Proof.
  intros H. apply In_nth_error in H. destruct H as [i Hi].
  rewrite nth_error_skipn in Hi. exists (n + i)%nat. split; [lia | assumption].
Qed.

Lemma filter_none {A : Type} (f : A -> bool) (l : list A) :
  (forall a, In a l -> f a = false) -> filter f l = [].
Proof.
  induction l as [| a l IH]; intros H; [reflexivity |].
  simpl. rewrite (H a (or_introl eq_refl)). apply IH.
  intros b Hb. apply H. right. assumption.
Qed.

(** X15: in a table with a nonzero step the k-th retained row (from 0) has
    tx2 below maxTemp - k * stepSize, so at most (maxTemp - minTemp)/stepSize
    = 100 retained rows have tx2 at or above minTemp, whatever the length of
    the sampled ADC range. *)
Theorem normal_table_bound (cfg : Config) (tbl : Z) (rows : list Row) :
  tbl <> 0%Z -> minTemp cfg <= maxTemp cfg ->
  table cfg tbl = Some rows ->
  (forall k r, nth_error rows k = Some r ->
     row_tx2 r < maxTemp cfg - INR k * ((maxTemp cfg - minTemp cfg) / 100)) /\
  (length (filter (at_least (minTemp cfg)) rows) <= 100)%nat.
Proof.
  intros Ht Hm H. unfold table in H.
  destruct (samples cfg) as [pts |]; [| discriminate]. rewrite bind_some in H.
  unfold temperatureStepSize in H.
  destruct (Z.eqb_spec tbl 0) as [E | _]; [contradiction |].
  rewrite div_some, bind_some in H by lra.
  pose proof (loop_index cfg _ pts _ _ H) as Hidx.
  split; [exact Hidx |].
  rewrite <- (firstn_skipn 100 rows), filter_app.
  assert (Hnil : filter (at_least (minTemp cfg)) (skipn 100 rows) = []).
  { apply filter_none. intros r Hr.
    apply skipn_In_nth_error in Hr. destruct Hr as (k & Hk & Hn).
    pose proof (Hidx k r Hn) as Hlt.
    assert (HK : 100 <= INR k).
    { replace 100 with (INR 100) by (simpl; lra). apply le_INR. assumption. }
    unfold at_least. destruct (Rle_dec (minTemp cfg) (row_tx2 r)) as [Hle |]; [| reflexivity].
    exfalso. nra. }
  rewrite Hnil, app_nil_r.
  apply Nat.le_trans with (length (firstn 100 rows)); [apply filter_length_le |].
  apply firstn_le_length.
Qed.

Lemma normal_table_bound_witness :
  (forall k r, nth_error (map mrow kept_normal) k = Some r ->
     row_tx2 r < maxTemp marlin - INR k * ((maxTemp marlin - minTemp marlin) / 100)) /\
  (length (filter (at_least (minTemp marlin)) (map mrow kept_normal)) <= 100)%nat.
Proof.
  apply (normal_table_bound marlin 600);
    [discriminate | simpl; lra | apply table_normal; discriminate].
Defined.

(** ** No validation of the constants *)

Lemma samples_one_code : samples one_code = Some [mpt 20].
Proof.
  unfold samples. change (adc one_code) with (Some [IZR 20]). rewrite bind_some.
  change (rlval one_code) with (rlval marlin). simpl Py.mapM.
  rewrite marlin_rlval by lia. reflexivity.
Qed.

Lemma table_one_code : table one_code 600 = Some [].
Proof.
  unfold table. rewrite samples_one_code, bind_some.
  change (temperatureStepSize one_code 600) with (temperatureStepSize marlin 600).
  rewrite step_normal by discriminate. rewrite bind_some.
  change (loop one_code) with (loop marlin).
  change (maxTemp one_code) with 300. rewrite <- Q2R_300.
  apply (run_sound (315 # 100) 300 [20%Z] []). vm_compute. reflexivity.
Qed.

(** C6, as the code has it: constants with adcStart = adcStop are sampled
    like any others, and the table is written. *)
Lemma invalid_config_is_sampled :
  ~ spec_valid_config one_code /\
  samples one_code = Some [mpt 20] /\ table one_code 600 = Some [].
Proof.
  split; [| split; [exact samples_one_code | exact table_one_code]].
  unfold spec_valid_config. simpl. intros H. decompose [and] H. lia.
Qed.

Lemma marlin_valid : spec_valid_config marlin.
Proof.
  unfold spec_valid_config. simpl. repeat split; try lra; try lia.
Qed.

(** C6 (amended): the generator checks none of its constants before
    sampling; the constants of the script are valid, and each of its three
    tables is generated without error. *)
Theorem script_constants_valid :
  spec_valid_config marlin /\
  Forall (fun tbl => exists rows, table marlin tbl = Some rows) tbls.
Proof.
  split; [exact marlin_valid |].
  repeat constructor.
  - exists (map mrow kept_normal). apply table_normal. discriminate.
  - exists (map mrow kept_normal). apply table_normal. discriminate.
  - exists (map mrow kept_dense). exact table_dense.
Qed.

(** ** Monotonicity before filtering *)

Lemma v2r_increasing (cfg : Config) (c1 c2 : R) :
  0 < adcFS cfg -> 0 < rPullup cfg -> 0 <= c1 -> c1 < c2 -> c2 < adcFS cfg ->
  exists r1 r2, v2r cfg c1 = Some r1 /\ v2r cfg c2 = Some r2 /\ r1 < r2.
Proof.
  intros Hfs Hp H0 H12 H2.
  exists (c1 * rPullup cfg / (adcFS cfg - c1)), (c2 * rPullup cfg / (adcFS cfg - c2)).
  split; [apply v2r_closed; lra |]. split; [apply v2r_closed; lra |].
  apply (Rmult_lt_reg_r ((adcFS cfg - c1) * (adcFS cfg - c2))).
  { apply Rmult_lt_0_compat; lra. }
  replace (c1 * rPullup cfg / (adcFS cfg - c1) * ((adcFS cfg - c1) * (adcFS cfg - c2)))
    with (rPullup cfg * (c1 * (adcFS cfg - c2))) by (field; lra).
  replace (c2 * rPullup cfg / (adcFS cfg - c2) * ((adcFS cfg - c1) * (adcFS cfg - c2)))
    with (rPullup cfg * (c2 * (adcFS cfg - c1))) by (field; lra).
  apply Rmult_lt_compat_l; [assumption |]. nra.
Qed.

Lemma qcode_increasing (c c' : Z) :
  (0 < c)%Z -> (c < c')%Z -> (c' < 1023)%Z -> qcode c < qcode c'.
Proof.
  intros H0 H1 H2. unfold qcode.
  pose proof (qcode_den_pos c ltac:(lia)) as Hd.
  pose proof (qcode_den_pos c' ltac:(lia)) as Hd'.
  apply (Rmult_lt_reg_r (IZR (1000 * (1023 - c)) * IZR (1000 * (1023 - c')))).
  { apply Rmult_lt_0_compat; assumption. }
  replace (IZR (47 * c) / IZR (1000 * (1023 - c)) *
           (IZR (1000 * (1023 - c)) * IZR (1000 * (1023 - c'))))
    with (IZR (47 * c) * IZR (1000 * (1023 - c'))) by (field; lra).
  replace (IZR (47 * c') / IZR (1000 * (1023 - c')) *
           (IZR (1000 * (1023 - c)) * IZR (1000 * (1023 - c'))))
    with (IZR (47 * c') * IZR (1000 * (1023 - c))) by (field; lra).
  rewrite <- !mult_IZR. apply IZR_lt. nia.
Qed.

Lemma rl_increasing (c c' : Z) :
  (0 < c)%Z -> (c < c')%Z -> (c' < 1023)%Z -> ln (qcode c) < ln (qcode c').
Proof.
  intros H0 H1 H2. apply ln_increasing; [apply qcode_pos; lia |].
  apply qcode_increasing; assumption.
Qed.

Lemma tx2_decreasing (c c' : Z) :
  (0 < c)%Z -> (c < c')%Z -> (c' < 1023)%Z ->
  tval marlin 3950 (ln (qcode c')) < tval marlin 3950 (ln (qcode c)).
Proof.
  intros H0 H1 H2.
  pose proof (rl_increasing c c' H0 H1 H2) as Hx.
  pose proof (marlin_divisor_pos c 3950 ltac:(lia) ltac:(lra)) as HD.
  pose proof (marlin_divisor_pos c' 3950 ltac:(lia) ltac:(lra)) as HD'.
  unfold tval. simpl tZero.
  assert (Hd : 1 / (25 + 273.15) + ln (qcode c) / 3950 <
               1 / (25 + 273.15) + ln (qcode c') / 3950) by lra.
  assert (1 / (1 / (25 + 273.15) + ln (qcode c') / 3950) <
          1 / (1 / (25 + 273.15) + ln (qcode c) / 3950)); [| lra].
  unfold Rdiv at 1 4. rewrite !Rmult_1_l.
  apply Rinv_lt_contravar; [apply Rmult_lt_0_compat; assumption | assumption].
Qed.

Lemma sampled_codes_nth (i : nat) (c : Z) :
  nth_error sampled_codes i = Some c -> c = (20 + Z.of_nat i)%Z /\ (i < 1001)%nat.
Proof.
  change sampled_codes with (map (fun i => (20 + Z.of_nat i)%Z) (seq 0 1001)).
  rewrite nth_error_map. intros H.
  destruct (nth_error (seq 0 1001) i) as [k |] eqn:E; [| discriminate].
  assert (Hi : (i < 1001)%nat).
  { assert (Hn : nth_error (seq 0 1001) i <> None) by congruence.
    apply nth_error_Some in Hn. rewrite length_seq in Hn. exact Hn. }
  rewrite nth_error_seq in E.
  destruct (Nat.ltb_spec i 1001); [| lia].
  injection E as <-. injection H as <-. split; [reflexivity | assumption].
Qed.

Lemma map_nth_sampled (f : Z -> R) (i : nat) (a : R) :
  nth_error (map f sampled_codes) i = Some a ->
  a = f (20 + Z.of_nat i)%Z /\ (i < 1001)%nat.
Proof.
  rewrite nth_error_map. intros H.
  destruct (nth_error sampled_codes i) as [c |] eqn:E; [| discriminate].
  apply sampled_codes_nth in E. destruct E as [-> Hi].
  injection H as <-. split; [reflexivity | assumption].
Qed.

Lemma tx2_sampled :
  Py.mapM (tx marlin (TXBETA2 marlin)) (map (fun c => ln (qcode c)) sampled_codes) =
  Some (map (fun c => tval marlin 3950 (ln (qcode c))) sampled_codes).
Proof.
  apply (mapM_map_in _ _ _ (fun c => (0 < c < 1023)%Z)); [| apply sampled_in_range].
  intros c Hc. apply marlin_tx; [assumption | simpl; lra].
Qed.

(** C10: v2r is strictly increasing on [0, adcFS); over the sampled codes
    the log ratios rlvals are strictly increasing and the real-valued tx2
    temperatures, before any filtering, are strictly decreasing. *)
Theorem sampling_monotone (c1 c2 : R) :
  0 <= c1 -> c1 < c2 -> c2 < adcFS marlin ->
  (exists r1 r2, v2r marlin c1 = Some r1 /\ v2r marlin c2 = Some r2 /\ r1 < r2) /\
  (exists xs ts,
     rlvals marlin = Some xs /\ increasing xs /\
     Py.mapM (tx marlin (TXBETA2 marlin)) xs = Some ts /\ decreasing ts).
Proof.
  intros H0 H12 H2. split.
  - apply v2r_increasing; simpl; simpl in H2; lra.
  - exists (map (fun c => ln (qcode c)) sampled_codes),
           (map (fun c => tval marlin 3950 (ln (qcode c))) sampled_codes).
    split; [exact rlvals_marlin |]. split; [| split; [exact tx2_sampled |]].
    + intros i j a b Hij Ha Hb.
      apply map_nth_sampled in Ha. apply map_nth_sampled in Hb.
      destruct Ha as [-> Hi]. destruct Hb as [-> Hj].
      apply rl_increasing; lia.
    + intros i j a b Hij Ha Hb.
      apply map_nth_sampled in Ha. apply map_nth_sampled in Hb.
      destruct Ha as [-> Hi]. destruct Hb as [-> Hj].
      apply tx2_decreasing; lia.
Qed.

Lemma sampling_monotone_witness :
  (exists r1 r2, v2r marlin 20 = Some r1 /\ v2r marlin 21 = Some r2 /\ r1 < r2) /\
  (exists xs ts,
     rlvals marlin = Some xs /\ increasing xs /\
     Py.mapM (tx marlin (TXBETA2 marlin)) xs = Some ts /\ decreasing ts).
Proof. apply (sampling_monotone 20 21); simpl; lra. Defined.

(** ** Order and content of a table, for any constants *)

Lemma subseq_refl {A : Type} (l : list A) : subseq l l.
Proof. induction l; [apply subseq_nil | apply subseq_keep; assumption]. Qed.

Lemma subseq_map {A B : Type} (f : A -> B) (l1 l2 : list A) :
  subseq l1 l2 -> subseq (map f l1) (map f l2).
Proof.
  induction 1; simpl;
    [apply subseq_nil | apply subseq_skip | apply subseq_keep]; assumption.
Qed.

Lemma subseq_length {A : Type} (l1 l2 : list A) :
  subseq l1 l2 -> (length l1 <= length l2)%nat.
Proof. induction 1; simpl; lia. Qed.

Lemma subseq_Forall {A : Type} (P : A -> Prop) (l1 l2 : list A) :
  subseq l1 l2 -> Forall P l2 -> Forall P l1.
Proof.
  induction 1 as [| a l1 l2 _ IH | a l1 l2 _ IH]; intros H.
  - constructor.
  - apply IH. inversion H; assumption.
  - inversion H; subst. constructor; [assumption | apply IH; assumption].
Qed.

Lemma subseq_sorted {A : Type} (lt : A -> A -> Prop) (l1 l2 : list A) :
  subseq l1 l2 -> StronglySorted lt l2 -> StronglySorted lt l1.
Proof.
  induction 1 as [| a l1 l2 Hs IH | a l1 l2 Hs IH]; intros H.
  - constructor.
  - apply IH. apply StronglySorted_inv in H. tauto.
  - apply StronglySorted_inv in H. destruct H as [H1 H2].
    constructor; [apply IH; assumption |].
    apply (subseq_Forall _ _ _ Hs H2).
Qed.

Lemma subseq_filter {A : Type} (f : A -> bool) (l1 l2 : list A) :
  subseq l1 l2 -> Forall (fun a => f a = true) l1 -> subseq l1 (filter f l2).
Proof.
  induction 1 as [| a l1 l2 _ IH | a l1 l2 _ IH]; intros H; simpl.
  - apply subseq_nil.
  - destruct (f a); [apply subseq_skip |]; apply IH; assumption.
  - inversion H as [| ? ? Ha Hl]; subst. rewrite Ha. apply subseq_keep, IH. assumption.
Qed.

(** The lines written are annotated points, in the order of the points. *)
Lemma loop_subseq_all (cfg : Config) (step : R) (pts : list (R * R)) :
  forall th rows all,
    loop cfg step th pts = Some rows -> Py.mapM (annotate cfg) pts = Some all ->
    subseq rows all.
Proof.
  induction pts as [| [a x] rest IH]; intros th rows all H Ha.
  - injection H as <-. injection Ha as <-. apply subseq_nil.
  - simpl in H, Ha. unfold annotate at 1 in Ha. simpl fst in Ha. simpl snd in Ha.
    destruct (tx cfg (TXBETA1 cfg) x) as [t1 |]; [| discriminate].
    destruct (tx cfg (TXBETA2 cfg) x) as [t2 |]; [| discriminate].
    destruct (tx cfg (TXBETA3 cfg) x) as [t3 |]; [| discriminate].
    simpl in H, Ha.
    destruct (Py.mapM (annotate cfg) rest) as [all' |] eqn:E; [| discriminate].
    simpl in Ha. injection Ha as <-.
    destruct (Rlt_dec t2 th).
    + destruct (loop cfg step (th - step) rest) as [rows' |] eqn:E'; [| discriminate].
      injection H as <-. apply subseq_keep. apply (IH _ _ _ E' eq_refl).
    + apply subseq_skip. apply (IH _ _ _ H eq_refl).
Qed.

(** A table that is written annotates every point it walks. *)
Lemma loop_annotates (cfg : Config) (step : R) (pts : list (R * R)) :
  forall th rows, loop cfg step th pts = Some rows ->
    exists all, Py.mapM (annotate cfg) pts = Some all.
Proof.
  induction pts as [| [a x] rest IH]; intros th rows H.
  - exists []. reflexivity.
  - simpl in H. simpl. unfold annotate at 1. simpl fst. simpl snd.
    destruct (tx cfg (TXBETA1 cfg) x) as [t1 |]; [| discriminate].
    destruct (tx cfg (TXBETA2 cfg) x) as [t2 |]; [| discriminate].
    destruct (tx cfg (TXBETA3 cfg) x) as [t3 |]; [| discriminate].
    simpl in H. simpl.
    assert (Hr : exists all, Py.mapM (annotate cfg) rest = Some all).
    { destruct (Rlt_dec t2 th).
      - destruct (loop cfg step (th - step) rest) as [rows' |] eqn:E'; [| discriminate].
        apply (IH _ _ E').
      - apply (IH _ _ H). }
    destruct Hr as [all' ->]. simpl. eexists. reflexivity.
Qed.

Lemma mapM_Forall2 {A B : Type} (f : A -> option B) (l : list A) :
  forall bs, Py.mapM f l = Some bs -> Forall2 (fun a b => f a = Some b) l bs.
Proof.
  induction l as [| a l IH]; intros bs H; simpl in H.
  - injection H as <-. constructor.
  - destruct (f a) as [b |] eqn:E; [| discriminate].
    destruct (Py.mapM f l) as [bs' |]; [| discriminate].
    simpl in H. injection H as <-. constructor; [assumption | apply IH; reflexivity].
Qed.

Lemma annotate_points (cfg : Config) (pts : list (R * R)) (all : list Row) :
  Py.mapM (annotate cfg) pts = Some all -> map row_point all = pts.
Proof.
  intros H. apply mapM_Forall2 in H.
  induction H as [| [a x] r pts all Hr _ IH]; [reflexivity |].
  simpl. rewrite IH. f_equal.
  unfold annotate in Hr. simpl in Hr.
  destruct (tx cfg (TXBETA1 cfg) x); [| discriminate].
  destruct (tx cfg (TXBETA2 cfg) x); [| discriminate].
  destruct (tx cfg (TXBETA3 cfg) x); [| discriminate].
  simpl in Hr. injection Hr as <-. reflexivity.
Qed.

Lemma annotate_projections (cfg : Config) (p : R * R) (r : Row) :
  annotate cfg p = Some r ->
  row_point r = p /\
  tx cfg (TXBETA1 cfg) (row_rlval r) = Some (row_tx1 r) /\
  tx cfg (TXBETA2 cfg) (row_rlval r) = Some (row_tx2 r) /\
  tx cfg (TXBETA3 cfg) (row_rlval r) = Some (row_tx3 r).
Proof.
  destruct p as [a x]. unfold annotate. simpl fst. simpl snd.
  destruct (tx cfg (TXBETA1 cfg) x) as [t1 |] eqn:E1; [| discriminate].
  destruct (tx cfg (TXBETA2 cfg) x) as [t2 |] eqn:E2; [| discriminate].
  destruct (tx cfg (TXBETA3 cfg) x) as [t3 |] eqn:E3; [| discriminate].
  simpl. intros H. injection H as <-. simpl. tauto.
Qed.

Lemma samples_points (cfg : Config) (pts : list (R * R)) :
  samples cfg = Some pts ->
  map fst pts = map IZR (codes cfg) /\
  Forall (fun p => rlval cfg (fst p) = Some (snd p)) pts.
Proof.
  unfold samples, adc. destruct (numResult cfg <? 0)%Z; [discriminate |].
  rewrite bind_some. generalize (map IZR (codes cfg)). intros l. revert pts.
  induction l as [| c l IH]; intros pts H; simpl in H.
  - injection H as <-. split; constructor.
  - destruct (rlval cfg c) as [x |] eqn:E; [| discriminate]. simpl in H.
    destruct (Py.mapM (fun c0 => x0 <- rlval cfg c0;; Some (c0, x0)) l) as [pts' |] eqn:E';
      [| discriminate].
    simpl in H. injection H as <-. destruct (IH pts' eq_refl) as [H1 H2].
    split; [simpl; f_equal; assumption | constructor; assumption].
Qed.

Lemma codes_sorted (a : Z) (n s : nat) :
  StronglySorted Rlt (map IZR (map (fun i => (a + Z.of_nat i)%Z) (seq s n))).
Proof.
  revert s. induction n as [| n IH]; intros s; simpl; constructor.
  - apply IH.
  - apply Forall_forall. intros y Hy.
    apply in_map_iff in Hy. destruct Hy as (z & <- & Hz).
    apply in_map_iff in Hz. destruct Hz as (i & <- & Hi).
    apply in_seq in Hi. apply IZR_lt. lia.
Qed.

Lemma table_parts (cfg : Config) (tbl : Z) (rows : list Row) :
  table cfg tbl = Some rows ->
  exists pts step all,
    samples cfg = Some pts /\ temperatureStepSize cfg tbl = Some step /\
    loop cfg step (maxTemp cfg) pts = Some rows /\
    Py.mapM (annotate cfg) pts = Some all /\ subseq rows all.
Proof.
  unfold table. intros H.
  destruct (samples cfg) as [pts |]; [| discriminate]. rewrite bind_some in H.
  destruct (temperatureStepSize cfg tbl) as [step |]; [| discriminate].
  rewrite bind_some in H.
  destruct (loop_annotates _ _ _ _ _ H) as [all Ha].
  exists pts, step, all. repeat split; try assumption.
  apply (loop_subseq_all _ _ _ _ _ _ H Ha).
Qed.

(** X1: the lines of a table are written for sampled points, in sampling
    order: the (adc, rlval) pairs of the rows are the sampled points with
    some left out. *)
Theorem table_rows_subseq_samples (cfg : Config) (tbl : Z) (rows : list Row) :
  table cfg tbl = Some rows ->
  exists pts, samples cfg = Some pts /\ subseq (map row_point rows) pts.
Proof.
  intros H. destruct (table_parts _ _ _ H) as (pts & step & all & Hs & _ & _ & Ha & Hsub).
  exists pts. split; [assumption |].
  rewrite <- (annotate_points _ _ _ Ha). apply subseq_map. assumption.
Qed.

(** X2: in every table the ADC codes of the rows are strictly increasing
    (no code is written twice), and each is one of the integer codes of the
    sampling range. *)
Theorem table_adc_strictly_increasing (cfg : Config) (tbl : Z) (rows : list Row) :
  table cfg tbl = Some rows ->
  StronglySorted Rlt (map row_adc rows) /\
  Forall (fun r => exists c, In c (codes cfg) /\ row_adc r = IZR c) rows.
Proof.
  intros H. destruct (table_parts _ _ _ H) as (pts & step & all & Hs & _ & _ & Ha & Hsub).
  destruct (samples_points _ _ Hs) as [Hfst _].
  assert (Hsubs : subseq (map row_adc rows) (map IZR (codes cfg))).
  { rewrite <- Hfst, <- (annotate_points _ _ _ Ha), map_map.
    change (fun x => fst (row_point x)) with row_adc.
    apply subseq_map. assumption. }
  split.
  - apply (subseq_sorted _ _ _ Hsubs). apply codes_sorted.
  - assert (Hall : Forall (fun a => exists c, In c (codes cfg) /\ a = IZR c)
                     (map IZR (codes cfg))).
    { apply Forall_forall. intros a Ha'. apply in_map_iff in Ha'.
      destruct Ha' as (c & <- & Hc). exists c. tauto. }
    pose proof (subseq_Forall _ _ _ Hsubs Hall) as HF.
    rewrite Forall_forall in HF. apply Forall_forall. intros r Hr.
    apply HF. apply in_map. assumption.
Qed.

(** X3: every row is consistent: its log ratio is rlvals of its own ADC
    code, and its three temperatures are the projections of that log ratio
    under TXBETA1, TXBETA2 and TXBETA3. *)
Theorem table_rows_annotated (cfg : Config) (tbl : Z) (rows : list Row) :
  table cfg tbl = Some rows ->
  Forall (fun r =>
            rlval cfg (row_adc r) = Some (row_rlval r) /\
            tx cfg (TXBETA1 cfg) (row_rlval r) = Some (row_tx1 r) /\
            tx cfg (TXBETA2 cfg) (row_rlval r) = Some (row_tx2 r) /\
            tx cfg (TXBETA3 cfg) (row_rlval r) = Some (row_tx3 r)) rows.
Proof.
  intros H. destruct (table_parts _ _ _ H) as (pts & step & all & Hs & _ & _ & Ha & Hsub).
  apply (subseq_Forall _ _ _ Hsub).
  destruct (samples_points _ _ Hs) as [_ Hrl].
  apply mapM_Forall2 in Ha. clear Hsub Hs H.
  induction Ha as [| p r pts all Hr _ IH]; [constructor |].
  inversion Hrl as [| ? ? Hp Hrest]; subst.
  constructor; [| apply IH; assumption].
  destruct (annotate_projections _ _ _ Hr) as (Hpt & H1 & H2 & H3).
  repeat split; try assumption.
  rewrite <- Hpt in Hp. exact Hp.
Qed.

(** X4: the line count printed for a table never exceeds numResult, the
    number of sampled codes. *)
Theorem table_lines_at_most_samples (cfg : Config) (tbl : Z) (n : nat) :
  lines cfg tbl = Some n -> (n <= Z.to_nat (numResult cfg))%nat.
Proof.
  unfold lines. destruct (table cfg tbl) as [rows |] eqn:H; [| discriminate].
  rewrite bind_some. intros E. injection E as <-.
  destruct (table_parts _ _ _ H) as (pts & step & all & Hs & _ & _ & Ha & Hsub).
  apply subseq_length in Hsub.
  rewrite (mapM_length _ _ _ Ha), (samples_length _ _ Hs) in Hsub. exact Hsub.
Qed.

(** X5: with minTemp <= maxTemp, every row of any table is also a row of
    the dense table 0, in the same order. *)
Theorem normal_rows_in_dense_table (cfg : Config) (tbl : Z) (rows dense : list Row) :
  minTemp cfg <= maxTemp cfg ->
  table cfg tbl = Some rows -> table cfg 0 = Some dense ->
  subseq rows dense.
Proof.
  intros Hm H H0.
  destruct (table_parts _ _ _ H) as (pts & step & all & Hs & Hst & Hl & Ha & Hsub).
  rewrite table_dense_filter, Hs, bind_some, Ha, bind_some in H0.
  injection H0 as <-.
  apply subseq_filter; [assumption |].
  assert (Hstep : 0 <= step).
  { unfold temperatureStepSize in Hst. destruct (tbl =? 0)%Z.
    - injection Hst as <-. lra.
    - rewrite div_some in Hst by lra. injection Hst as <-. lra. }
  eapply Forall_impl; [| apply (loop_below cfg step pts Hstep _ _ Hl)].
  intros r Hr. apply below_spec. exact Hr.
Qed.

Lemma table_rows_subseq_samples_witness :
  exists pts, samples marlin = Some pts /\
              subseq (map row_point (map mrow kept_normal)) pts.
Proof.
  apply (table_rows_subseq_samples marlin 600). apply table_normal. discriminate.
Defined.

Lemma table_adc_strictly_increasing_witness :
  StronglySorted Rlt (map row_adc (map mrow kept_normal)) /\
  Forall (fun r => exists c, In c (codes marlin) /\ row_adc r = IZR c)
    (map mrow kept_normal).
Proof.
  apply (table_adc_strictly_increasing marlin 600). apply table_normal. discriminate.
Defined.

Lemma table_rows_annotated_witness :
  Forall (fun r =>
            rlval marlin (row_adc r) = Some (row_rlval r) /\
            tx marlin (TXBETA1 marlin) (row_rlval r) = Some (row_tx1 r) /\
            tx marlin (TXBETA2 marlin) (row_rlval r) = Some (row_tx2 r) /\
            tx marlin (TXBETA3 marlin) (row_rlval r) = Some (row_tx3 r))
    (map mrow kept_normal).
Proof.
  apply (table_rows_annotated marlin 600). apply table_normal. discriminate.
Defined.

Lemma table_lines_at_most_samples_witness :
  (103 <= Z.to_nat (numResult marlin))%nat.
Proof.
  apply (table_lines_at_most_samples marlin 600). apply lines_normal. discriminate.
Defined.

Lemma normal_rows_in_dense_table_witness :
  subseq (map mrow kept_normal) (map mrow kept_dense).
Proof.
  apply (normal_rows_in_dense_table marlin 600);
    [simpl; lra | apply table_normal; discriminate | exact table_dense].
Defined.

(** ** The selection looks at the middle beta only *)

Lemma loop_side_betas (cfg : Config) (b1 b3 step : R) (pts : list (R * R)) :
  forall th rows rows',
    loop cfg step th pts = Some rows ->
    loop (with_side_betas cfg b1 b3) step th pts = Some rows' ->
    map row_key rows = map row_key rows'.
Proof.
  induction pts as [| [a x] rest IH]; intros th rows rows' H H'.
  - injection H as <-. injection H' as <-. reflexivity.
  - simpl in H, H'.
    change (tx (with_side_betas cfg b1 b3)) with (tx cfg) in H'.
    destruct (tx cfg (TXBETA1 cfg) x) as [t1 |]; [| discriminate].
    destruct (tx cfg (TXBETA2 cfg) x) as [t2 |]; [| discriminate].
    destruct (tx cfg (TXBETA3 cfg) x) as [t3 |]; [| discriminate].
    destruct (tx cfg b1 x) as [u1 |]; [| discriminate].
    destruct (tx cfg b3 x) as [u3 |]; [| discriminate].
    simpl in H, H'. destruct (Rlt_dec t2 th).
    + destruct (loop cfg step (th - step) rest) as [rs |] eqn:E; [| discriminate].
      destruct (loop (with_side_betas cfg b1 b3) step (th - step) rest) as [rs' |] eqn:E';
        [| discriminate].
      injection H as <-. injection H' as <-. simpl. f_equal. apply (IH _ _ _ E E').
    + apply (IH _ _ _ H H').
Qed.

(** X6: which points are kept, and their middle-beta temperature, does not
    depend on the reference betas TXBETA1 and TXBETA3. *)
Theorem selection_ignores_side_betas
    (cfg : Config) (b1 b3 : R) (tbl : Z) (rows rows' : list Row) :
  table cfg tbl = Some rows ->
  table (with_side_betas cfg b1 b3) tbl = Some rows' ->
  map row_key rows = map row_key rows'.
Proof.
  unfold table. change (samples (with_side_betas cfg b1 b3)) with (samples cfg).
  change (temperatureStepSize (with_side_betas cfg b1 b3) tbl)
    with (temperatureStepSize cfg tbl).
  change (maxTemp (with_side_betas cfg b1 b3)) with (maxTemp cfg).
  destruct (samples cfg) as [pts |]; [| discriminate]. rewrite !bind_some.
  destruct (temperatureStepSize cfg tbl) as [step |]; [| discriminate].
  rewrite !bind_some. apply loop_side_betas.
Qed.

Lemma loop_side_betas_defined (cfg : Config) (b1 b3 step : R) (pts : list (R * R)) :
  Forall (fun p => exists u1 u3, tx cfg b1 (snd p) = Some u1 /\
                                 tx cfg b3 (snd p) = Some u3) pts ->
  forall th rows, loop cfg step th pts = Some rows ->
    exists rows', loop (with_side_betas cfg b1 b3) step th pts = Some rows'.
Proof.
  induction 1 as [| [a x] rest (u1 & u3 & Hu1 & Hu3) _ IH]; intros th rows H.
  - exists []. reflexivity.
  - simpl in H. simpl. simpl in Hu1, Hu3.
    change (tx (with_side_betas cfg b1 b3)) with (tx cfg).
    rewrite Hu1, Hu3.
    destruct (tx cfg (TXBETA1 cfg) x) as [t1 |]; [| discriminate].
    destruct (tx cfg (TXBETA2 cfg) x) as [t2 |]; [| discriminate].
    destruct (tx cfg (TXBETA3 cfg) x) as [t3 |]; [| discriminate].
    simpl in H. simpl. destruct (Rlt_dec t2 th).
    + destruct (loop cfg step (th - step) rest) as [rs |] eqn:E; [| discriminate].
      destruct (IH _ _ E) as [rs' ->]. simpl. eexists. reflexivity.
    + apply (IH _ _ H).
Qed.

Lemma table_marlin_side_betas :
  exists rows', table (with_side_betas marlin 3435 4700) 600 = Some rows'.
Proof.
  unfold table. change (samples (with_side_betas marlin 3435 4700)) with (samples marlin).
  rewrite samples_marlin, bind_some.
  change (temperatureStepSize (with_side_betas marlin 3435 4700) 600)
    with (temperatureStepSize marlin 600).
  rewrite step_normal by discriminate. rewrite bind_some.
  change (maxTemp (with_side_betas marlin 3435 4700)) with 300.
  apply (loop_side_betas_defined marlin 3435 4700 _ _) with (rows := map mrow kept_normal).
  - apply Forall_forall. intros p Hp. apply in_map_iff in Hp.
    destruct Hp as (c & <- & Hc).
    pose proof sampled_in_range as Hr. rewrite Forall_forall in Hr.
    specialize (Hr c Hc). simpl snd.
    exists (tval marlin 3435 (ln (qcode c))), (tval marlin 4700 (ln (qcode c))).
    split; apply marlin_tx; assumption || lra.
  - rewrite <- Q2R_300. apply run_sound. exact run_normal.
Qed.

Lemma selection_ignores_side_betas_witness :
  exists rows',
    table (with_side_betas marlin 3435 4700) 600 = Some rows' /\
    map row_key (map mrow kept_normal) = map row_key rows'.
Proof.
  destruct table_marlin_side_betas as [rows' H]. exists rows'.
  split; [exact H |].
  apply (selection_ignores_side_betas marlin 3435 4700 600);
    [apply table_normal; discriminate | exact H].
Defined.

(** ** The sampling range *)

(** X7: when adcStop is below adcStart the table is empty if the range is
    empty by exactly one code (numResult = 0), and nothing is generated for
    a negative numResult. *)
Theorem table_of_empty_range (cfg : Config) (tbl : Z) :
  (adcStop cfg < adcStart cfg)%Z ->
  table cfg tbl = if (adcStop cfg =? adcStart cfg - 1)%Z then Some [] else None.
Proof.
  intros H. unfold table, samples, adc, codes, numResult.
  destruct (Z.eqb_spec (adcStop cfg) (adcStart cfg - 1)) as [E | N].
  - rewrite E. replace (adcStart cfg - 1 - adcStart cfg + 1)%Z with 0%Z by lia.
    simpl. unfold temperatureStepSize.
    destruct (tbl =? 0)%Z; [reflexivity |].
    rewrite div_some by lra. reflexivity.
  - destruct (Z.ltb_spec (adcStop cfg - adcStart cfg + 1) 0) as [_ | Hge]; [reflexivity | lia].
Qed.

Lemma table_of_empty_range_witness :
  table (with_range marlin 20 19) 0 = Some [] /\
  table (with_range marlin 20 10) 0 = None.
Proof.
  split.
  - apply (table_of_empty_range (with_range marlin 20 19) 0). simpl. lia.
  - apply (table_of_empty_range (with_range marlin 20 10) 0). simpl. lia.
Defined.

(** ** More on the two conversions *)

Lemma r2v_some (cfg : Config) (r : R) :
  0 < rPullup cfg -> 0 <= r ->
  r2v cfg r = Some (adcFS cfg * r / (r + rPullup cfg)).
Proof. intros Hp Hr. unfold r2v. apply div_some. lra. Qed.

(** X8: the other round trip: for a resistance r >= 0, r2v gives a code in
    [0, adcFS) and v2r of that code is r again. *)
Theorem roundtrip_v2r_r2v (cfg : Config) (r : R) :
  0 < adcFS cfg -> 0 < rPullup cfg -> 0 <= r ->
  exists c, r2v cfg r = Some c /\ 0 <= c < adcFS cfg /\ v2r cfg c = Some r.
Proof.
  intros Hfs Hp Hr. exists (adcFS cfg * r / (r + rPullup cfg)).
  assert (Hd : 0 < r + rPullup cfg) by lra.
  assert (Hgap : adcFS cfg - adcFS cfg * r / (r + rPullup cfg) =
                 adcFS cfg * rPullup cfg / (r + rPullup cfg)) by (field; lra).
  assert (Hpos : 0 < adcFS cfg * rPullup cfg / (r + rPullup cfg)).
  { apply Rdiv_lt_0_compat; [apply Rmult_lt_0_compat; assumption | assumption]. }
  split; [apply r2v_some; assumption |]. split; [split |].
  - apply Rmult_le_pos; [apply Rmult_le_pos; lra |].
    left. apply Rinv_0_lt_compat. assumption.
  - lra.
  - rewrite v2r_closed by lra. f_equal. rewrite Hgap. field. lra.
Qed.

Lemma roundtrip_v2r_r2v_witness :
  exists c, r2v marlin 1e5 = Some c /\ 0 <= c < adcFS marlin /\ v2r marlin c = Some 1e5.
Proof. apply (roundtrip_v2r_r2v marlin 1e5); simpl; lra. Defined.

(** X9: r2v is strictly increasing on the resistances r >= 0. *)
Theorem r2v_increasing (cfg : Config) (r1 r2 : R) :
  0 < adcFS cfg -> 0 < rPullup cfg -> 0 <= r1 -> r1 < r2 ->
  exists c1 c2, r2v cfg r1 = Some c1 /\ r2v cfg r2 = Some c2 /\ c1 < c2.
Proof.
  intros Hfs Hp H1 H12.
  exists (adcFS cfg * r1 / (r1 + rPullup cfg)), (adcFS cfg * r2 / (r2 + rPullup cfg)).
  split; [apply r2v_some; lra |]. split; [apply r2v_some; lra |].
  apply (Rmult_lt_reg_r ((r1 + rPullup cfg) * (r2 + rPullup cfg))).
  { apply Rmult_lt_0_compat; lra. }
  replace (adcFS cfg * r1 / (r1 + rPullup cfg) * ((r1 + rPullup cfg) * (r2 + rPullup cfg)))
    with (adcFS cfg * (r1 * (r2 + rPullup cfg))) by (field; lra).
  replace (adcFS cfg * r2 / (r2 + rPullup cfg) * ((r1 + rPullup cfg) * (r2 + rPullup cfg)))
    with (adcFS cfg * (r2 * (r1 + rPullup cfg))) by (field; lra).
  apply Rmult_lt_compat_l; [assumption |]. nra.
Qed.

Lemma r2v_increasing_witness :
  exists c1 c2, r2v marlin 4700 = Some c1 /\ r2v marlin 1e5 = Some c2 /\ c1 < c2.
Proof. apply (r2v_increasing marlin 4700 1e5); simpl; lra. Defined.

(** X10: at half of full scale the thermistor equals the pull up:
    v2r(adcFS/2) = rPullup, and r2v(rPullup) = adcFS/2. *)
Theorem v2r_at_half_scale (cfg : Config) :
  adcFS cfg <> 0 ->
  v2r cfg (adcFS cfg / 2) = Some (rPullup cfg) /\
  (rPullup cfg <> 0 -> r2v cfg (rPullup cfg) = Some (adcFS cfg / 2)).
Proof.
  intros Hfs. split.
  - rewrite v2r_closed; [| assumption | intros H; apply Hfs; lra].
    f_equal. field. intros H. apply Hfs. lra.
  - intros Hp. unfold r2v.
    rewrite div_some by (intros H; apply Hp; lra).
    f_equal. field. intros H. apply Hp. lra.
Qed.

Lemma v2r_at_half_scale_witness :
  v2r marlin (adcFS marlin / 2) = Some (rPullup marlin) /\
  (rPullup marlin <> 0 -> r2v marlin (rPullup marlin) = Some (adcFS marlin / 2)).
Proof. apply (v2r_at_half_scale marlin). simpl. lra. Defined.

Lemma ratio_sign (c fs : R) :
  0 < fs -> c <> fs -> (0 < c / (fs - c) <-> 0 < c < fs).
Proof.
  intros Hfs Hc. split.
  - intros H. destruct (Rlt_dec c fs) as [Hlt | Hge].
    + split; [| assumption].
      apply (Rmult_lt_compat_r (fs - c)) in H; [| lra].
      replace (c / (fs - c) * (fs - c)) with c in H by (field; lra). lra.
    + exfalso. assert (Hgt : fs < c) by lra.
      assert (H' : c / (fs - c) = - (c / (c - fs))) by (field; lra).
      assert (0 < c / (c - fs)) by (apply Rdiv_lt_0_compat; lra). lra.
  - intros [H0 H1]. apply Rdiv_lt_0_compat; lra.
Qed.

(** X11: with positive constants the log ratio of a code is a real number
    exactly for the codes strictly between 0 and adcFS, where it is
    ln(c rPullup / ((adcFS - c) rRef)). *)
Theorem rlval_defined_iff (cfg : Config) (c : R) :
  0 < adcFS cfg -> 0 < rPullup cfg -> 0 < rRef cfg ->
  ((exists x, rlval cfg c = Some x) <-> 0 < c < adcFS cfg) /\
  (0 < c < adcFS cfg ->
   rlval cfg c = Some (ln (c * rPullup cfg / (adcFS cfg - c) / rRef cfg))).
Proof.
  intros Hfs Hp Href.
  assert (Hval : c <> adcFS cfg ->
                 rlval cfg c =
                 Py.log (c * rPullup cfg / (adcFS cfg - c) / rRef cfg)).
  { intros Hc. unfold rlval. rewrite v2r_closed by lra. rewrite bind_some.
    rewrite div_some by lra. rewrite bind_some. reflexivity. }
  assert (Hsign : c <> adcFS cfg ->
                  (0 < c * rPullup cfg / (adcFS cfg - c) / rRef cfg <-> 0 < c < adcFS cfg)).
  { intros Hc. rewrite <- (ratio_sign c (adcFS cfg) Hfs Hc).
    replace (c * rPullup cfg / (adcFS cfg - c) / rRef cfg)
      with (c / (adcFS cfg - c) * (rPullup cfg / rRef cfg)) by (field; lra).
    assert (Hk : 0 < rPullup cfg / rRef cfg) by (apply Rdiv_lt_0_compat; assumption).
    split; intros H; [| apply Rmult_lt_0_compat; assumption].
    apply (Rmult_lt_reg_r (rPullup cfg / rRef cfg)); [assumption |]. lra. }
  split.
  - split.
    + intros [x Hx]. destruct (Req_dec_T c (adcFS cfg)) as [E | N].
      * subst c. unfold rlval in Hx.
        rewrite (proj2 (v2r_none_iff cfg (adcFS cfg) ltac:(lra)) eq_refl) in Hx.
        discriminate.
      * rewrite (Hval N) in Hx. unfold Py.log in Hx.
        destruct (Rlt_dec 0 (c * rPullup cfg / (adcFS cfg - c) / rRef cfg)) as [Hpos |];
          [| discriminate].
        apply (Hsign N). assumption.
    + intros H. assert (N : c <> adcFS cfg) by lra.
      rewrite (Hval N). eexists. apply log_some. apply (Hsign N). assumption.
  - intros H. assert (N : c <> adcFS cfg) by lra.
    rewrite (Hval N). apply log_some. apply (Hsign N). assumption.
Qed.

Lemma rlval_defined_iff_witness :
  ((exists x, rlval marlin 0 = Some x) <-> 0 < 0 < adcFS marlin) /\
  (0 < 0 < adcFS marlin ->
   rlval marlin 0 = Some (ln (0 * rPullup marlin / (adcFS marlin - 0) / rRef marlin))).
Proof. apply (rlval_defined_iff marlin 0); simpl; lra. Defined.

(** ** More on the projection *)

(** X12: for a positive beta the projection is strictly decreasing in the
    log ratio wherever its divisor is positive: a larger resistance projects
    to a lower temperature. *)
Theorem tx_decreasing_in_log_ratio (cfg : Config) (beta x1 x2 : R) :
  0 < 25 + tZero cfg -> 0 < beta ->
  0 < 1 / (25 + tZero cfg) + x1 / beta -> x1 < x2 ->
  exists t1 t2,
    tx cfg beta x1 = Some t1 /\ tx cfg beta x2 = Some t2 /\ t2 < t1.
Proof.
  intros H25 Hb HD Hx.
  assert (Hlt : x1 / beta < x2 / beta).
  { unfold Rdiv. apply Rmult_lt_compat_r; [apply Rinv_0_lt_compat; assumption | assumption]. }
  exists (tval cfg beta x1), (tval cfg beta x2).
  split; [apply tx_some; lra |]. split; [apply tx_some; lra |].
  unfold tval.
  set (u := 1 / (25 + tZero cfg) + x1 / beta) in *.
  set (v := 1 / (25 + tZero cfg) + x2 / beta).
  assert (Huv : u < v) by (unfold u, v; lra).
  assert (1 / v < 1 / u); [| lra].
  unfold Rdiv. rewrite !Rmult_1_l.
  apply Rinv_lt_contravar; [apply Rmult_lt_0_compat; lra | assumption].
Qed.

Lemma tx_decreasing_in_log_ratio_witness :
  exists t1 t2,
    tx marlin 3950 0 = Some t1 /\ tx marlin 3950 1 = Some t2 /\ t2 < t1.
Proof.
  apply (tx_decreasing_in_log_ratio marlin 3950 0 1); simpl; lra.
Defined.

(** X13: for a positive log ratio (resistance above rRef) a larger beta
    gives a higher projected temperature. *)
Theorem T_increasing_in_beta_when_cold (cfg : Config) (x b1 b2 : R) :
  0 < 25 + tZero cfg -> 0 < x -> 0 < b1 -> b1 < b2 ->
  exists t1 t2,
    T cfg x b1 = Some t1 /\ T cfg x b2 = Some t2 /\ t1 < t2.
Proof.
  intros H25 Hx Hb1 Hb2.
  assert (Ha : 0 < 1 / (25 + tZero cfg)) by (apply Rdiv_lt_0_compat; lra).
  assert (Hi : / b2 < / b1).
  { apply Rinv_lt_contravar; [apply Rmult_lt_0_compat; lra | assumption]. }
  assert (Hi2 : 0 < / b2) by (apply Rinv_0_lt_compat; lra).
  assert (Hlt : x / b2 < x / b1) by (unfold Rdiv; nra).
  assert (Hp2 : 0 < x / b2) by (unfold Rdiv; nra).
  exists (tval cfg b1 x - 0.5), (tval cfg b2 x - 0.5).
  split; [apply T_some; lra |]. split; [apply T_some; lra |].
  unfold tval.
  set (u := 1 / (25 + tZero cfg) + x / b1).
  set (v := 1 / (25 + tZero cfg) + x / b2).
  assert (Hvu : v < u) by (unfold u, v; lra).
  assert (Hv : 0 < v) by (unfold v; lra).
  assert (1 / u < 1 / v); [| lra].
  unfold Rdiv. rewrite !Rmult_1_l.
  apply Rinv_lt_contravar; [apply Rmult_lt_0_compat; lra | assumption].
Qed.

Lemma T_increasing_in_beta_when_cold_witness :
  exists t1 t2,
    T marlin 1 3380 = Some t1 /\ T marlin 1 4500 = Some t2 /\ t1 < t2.
Proof. apply (T_increasing_in_beta_when_cold marlin 1 3380 4500); simpl; lra. Defined.

(** ** The macro of the header against the printed comment *)



